(** * dataproxyclient: a paginating benchmark client (main.go)

    The program posts (hash, token) requests to a data proxy, follows the
    next-page tokens until the server returns an empty one, and prints a
    summary.  Everything it does goes through library calls (flag.Parse,
    json.Marshal, time.Now, http.Post, Decoder.Decode, fmt.Printf,
    log.Fatal); the
    embedding below threads a [World], the log of those calls, through the
    code and takes the answers of the libraries from an [Env]. *)

From Stdlib Require Import ZArith List String Ascii Bool Lia DecimalString.
Import ListNotations.

Local Open Scope string_scope.
Local Open Scope Z_scope.
Local Open Scope list_scope.

(** ** Go integers *)

Module GoInt.

(** [int] and [time.Duration] are 64-bit two's-complement integers. *)
Definition min_int : Z := - 2 ^ 63.
Definition max_int : Z := 2 ^ 63 - 1.

Definition in_range (z : Z) : Prop := min_int <= z <= max_int.

Definition wrap (z : Z) : Z := (z + 2 ^ 63) mod 2 ^ 64 - 2 ^ 63.

(** [a + b], [a += b], [a++] on [int] or [Duration]. *)
Definition add (a b : Z) : Z := wrap (a + b).

(** [%v] of an [int]: its decimal representation. *)
Definition format (z : Z) : string := NilZero.string_of_int (Z.to_int z).

End GoInt.

(** ** The data model (main.go, lines 13-40) *)

Record Request := { Hash : string; Token : string }.

Record Column := { Name : string; Type_ : string; Position : Z }.

Record Header := { Columns : list Column }.

Record Data := { Header_ : Header; Records : list (list string) }.

Record Meta := { NextToken : string }.

Record ResultSet := { Meta_ : Meta; Data_ : Data }.

(** A Go [error] value that is not nil, by its message; [option error] is
    an [error] that may be nil. *)
Definition error := string.

Definition Duration := Z.
Definition Time := Z.

(** What a library call of type [(T, error)] returns. *)
Inductive result (T : Type) : Type :=
| Ok (t : T)
| Failed (err : error).
Arguments Ok {T} t.
Arguments Failed {T} err.

(** [*http.Response], of which the program only reads the body. *)
Record Response := { Body : string }.

(** ** The world *)

(** One entry per library call the program makes, oldest first. *)
Inductive Event :=
| EvParse (arguments : list string)       (* flag.Parse(), on os.Args[1:] *)
| EvMarshal (r : Request)                 (* json.Marshal(r) *)
| EvNow                                   (* time.Now() *)
| EvPost (url contentType body : string)  (* http.Post(url, contentType, body) *)
| EvDecode (body : string)                (* json.NewDecoder(body).Decode(&result) *)
| EvPrintf (out : string)                 (* fmt.Printf, by the text it writes *)
| EvLogFatal (msg : string).              (* log.Fatal(msg) *)

Definition World := list Event.

Definition is_post (e : Event) : bool :=
  match e with EvPost _ _ _ => true | _ => false end.
Definition is_decode (e : Event) : bool :=
  match e with EvDecode _ => true | _ => false end.
Definition is_now (e : Event) : bool :=
  match e with EvNow => true | _ => false end.

Definition count (p : Event -> bool) (w : World) : nat :=
  List.length (filter p w).

(** The tokens of the requests serialized so far: [consumePage] serializes
    its request before anything else and nothing else calls json.Marshal, so
    these are the tokens [consumePage] was called with. *)
Fixpoint tokens_fetched (w : World) : list string :=
  match w with
  | [] => []
  | EvMarshal r :: w' => Token r :: tokens_fetched w'
  | _ :: w' => tokens_fetched w'
  end.

(** The flags given on the command line, [None] for a flag that is absent. *)
Record CommandLine := {
  flag_url : option string;
  flag_hash : option string;
  flag_token : option string
}.

(** What flag.Parse() comes to, the flag set being the default one, which
    exits on error. *)
Inductive ParseResult :=
| Parsed (flags : CommandLine)  (* it returns, these flags set *)
| ParseHelp                     (* -h or -help: usage text, os.Exit(0) *)
| ParseError (msg : string).    (* message and usage text, os.Exit(2) *)

(** The deterministic environment: what each library answers.  The n-th
    call of http.Post, Decode and time.Now may answer differently from the
    calls before it. *)
Record Env := {
  flag_Parse : list string -> ParseResult;
  json_Marshal : Request -> result string;
  http_Post : nat -> string -> string -> string -> result Response;
  json_Decode : nat -> string -> result ResultSet;
  time_Now : nat -> Time;
  format_Duration : Duration -> string   (* Duration.String() *)
}.

(** t.Sub(u) on monotonic clock readings: the difference, saturated to the
    range of [Duration]. *)
Definition time_Sub (t u : Time) : Duration :=
  Z.max GoInt.min_int (Z.min GoInt.max_int (t - u)).

(** len(s) of a Go string: its number of bytes. *)
Definition len_string (s : string) : Z := Z.of_nat (String.length s).

(** len(s) of a slice. *)
Definition len {A : Type} (s : list A) : Z := Z.of_nat (List.length s).

(** append(s, x): the runtime panics when the new length is not an [int]. *)
Definition append {A : Type} (s : list A) (x : A) : option (list A) :=
  if len s <? GoInt.max_int then Some (s ++ [x]) else None.

(** ** The IO monad: state passing over the world *)

Definition IO (A : Type) : Type := World -> A * World.

Definition ret {A : Type} (a : A) : IO A := fun w => (a, w).

Definition bind {A B : Type} (m : IO A) (k : A -> IO B) : IO B :=
  fun w => let (a, w') := m w in k a w'.

Declare Scope io_scope.
Delimit Scope io_scope with io.
Notation "x <- m ;; k" := (bind m (fun x => k))
  (at level 61, m at next level, right associativity) : io_scope.

(** What running a function that loops, panics or exits can come to. *)
Inductive Run (A : Type) : Type :=
| Returned (a : A) (w : World)        (* normal return *)
| Panicked (msg : string) (w : World) (* runtime panic *)
| Exited (code : Z) (w : World)       (* os.Exit(code) *)
| OutOfFuel (w : World).              (* still looping when the fuel ran out *)
Arguments Returned {A} a w.
Arguments Panicked {A} msg w.
Arguments Exited {A} code w.
Arguments OutOfFuel {A} w.

Definition final_world {A : Type} (r : Run A) : World :=
  match r with
  | Returned _ w | Panicked _ w | Exited _ w | OutOfFuel w => w
  end.

(** The line feed that ends every line the program prints. *)
Definition nl : string := String (ascii_of_nat 10) EmptyString.

(** ** The program *)

(** What [consumePage] returns: next token, record count, request
    duration, decode duration, error. *)
Definition PageResult : Type :=
  (string * Z * Duration * Duration * option error)%type.

(** What [consumeAllPages] returns: page count, record counts, total
    request duration, total decode duration, error.  A nil slice and an
    empty one are both the empty list. *)
Definition AllPagesResult : Type :=
  (Z * list Z * Duration * Duration * option error)%type.

(** The variables of the loop of [consumeAllPages]. *)
Record LoopState := {
  pageCount : Z;
  recordCounts : list Z;
  totalDurationRequest : Duration;
  totalUnmarshalDuration : Duration;
  nextToken : string
}.

(** What one pass through the loop of [consumeAllPages] comes to. *)
Inductive Iteration :=
| Continue (st : LoopState) (w : World)       (* back to the loop condition *)
| Leave (r : AllPagesResult) (w : World)      (* a return statement *)
| Panic (msg : string) (w : World).

(** flag.String(name, value, usage) after flag.Parse(): the flag as given,
    and its default [value] when it is absent. *)
Definition flag_String (given : option string) (value : string) : string :=
  match given with
  | Some v => v
  | None => value
  end.

Section Program.

Variable env : Env.

Local Open Scope io_scope.

(** *** Library calls *)

Definition Parse (arguments : list string) : IO ParseResult :=
  fun w => (flag_Parse env arguments, w ++ [EvParse arguments]).

Definition Marshal (r : Request) : IO (result string) :=
  fun w => (json_Marshal env r, w ++ [EvMarshal r]).

Definition Now : IO Time :=
  fun w => (time_Now env (count is_now w), w ++ [EvNow]).

Definition Post (url contentType body : string) : IO (result Response) :=
  fun w => (http_Post env (count is_post w) url contentType body,
            w ++ [EvPost url contentType body]).

Definition Decode (body : string) : IO (result ResultSet) :=
  fun w => (json_Decode env (count is_decode w) body, w ++ [EvDecode body]).

Definition Printf (out : string) : IO unit :=
  fun w => (tt, w ++ [EvPrintf out]).

(** *** consumePage (main.go, lines 46-74) *)

Definition consumePage (url hash token : string) : IO PageResult :=
  let r := {| Hash := hash; Token := token |} in
  jsonData <- Marshal r ;;
  match jsonData with
  | Failed err => ret ("", 0, 0, 0, Some err)
  | Ok jsonData =>
      t1 <- Now ;;
      resp <- Post (url ++ "/page")%string "application/json" jsonData ;;
      match resp with
      | Failed err => ret ("", 0, 0, 0, Some err)
      | Ok resp =>
          t2 <- Now ;;
          result <- Decode (Body resp) ;;
          match result with
          | Failed err => ret ("", 0, 0, 0, Some err)
          | Ok result =>
              t3 <- Now ;;
              ret (NextToken (Meta_ result), len (Records (Data_ result)),
                   time_Sub t2 t1, time_Sub t3 t2, None)
          end
      end
  end.

(** *** consumeAllPages (main.go, lines 79-99) *)

Definition initial (firstToken : string) : LoopState :=
  {| pageCount := 0;
     recordCounts := [];
     totalDurationRequest := 0;
     totalUnmarshalDuration := 0;
     nextToken := firstToken |}.

(** The loop condition, and the loop body or the return after the loop. *)
Definition iteration (url hash : string) (st : LoopState) (w : World)
  : Iteration :=
  if 0 <? len_string (nextToken st) then
    let '((token, recordCount, requestDuration, unMarshalDuration, err), w1) :=
      consumePage url hash (nextToken st) w in
    match err with
    | Some err => Leave (0, [], 0, 0, Some err) w1
    | None =>
        match append (recordCounts st) recordCount with
        | None => Panic "growslice: len out of range" w1
        | Some counts =>
            Continue
              {| nextToken := token;
                 pageCount := GoInt.add (pageCount st) 1;
                 recordCounts := counts;
                 totalDurationRequest :=
                   GoInt.add (totalDurationRequest st) requestDuration;
                 totalUnmarshalDuration :=
                   GoInt.add (totalUnmarshalDuration st) unMarshalDuration |}
              w1
        end
    end
  else
    Leave (pageCount st, recordCounts st, totalDurationRequest st,
           totalUnmarshalDuration st, None) w.

Fixpoint loop (fuel : nat) (url hash : string) (st : LoopState) (w : World)
  : Run AllPagesResult :=
  match fuel with
  | O => OutOfFuel w
  | S fuel' =>
      match iteration url hash st w with
      | Continue st' w' => loop fuel' url hash st' w'
      | Leave r w' => Returned r w'
      | Panic msg w' => Panicked msg w'
      end
  end.

Definition consumeAllPages (fuel : nat) (url hash firstToken : string)
  (w : World) : Run AllPagesResult :=
  loop fuel url hash (initial firstToken) w.

(** *** printConsumption (main.go, lines 102-118) *)

(** The loop of lines 109-112. *)
Definition total_records (recordCounts : list Z) : Z :=
  fold_left GoInt.add recordCounts 0.

Definition printConsumption (hash firstToken : string) (pageCount : Z)
  (recordCounts : list Z) (totalDurationRequest totalUnmarshalDuration : Duration)
  (err : option error) : IO unit :=
  _ <- Printf ("Hash: " ++ hash ++ ", First Token: " ++ firstToken ++ nl)%string ;;
  match err with
  | Some err => Printf ("Error: " ++ err ++ nl)%string
  | None =>
      let records := total_records recordCounts in
      _ <- Printf ("  Pages: " ++ GoInt.format pageCount ++ nl)%string ;;
      _ <- Printf ("  Records: " ++ GoInt.format records ++ nl)%string ;;
      _ <- Printf ("  Duration to retrieve pages: "
                   ++ format_Duration env totalDurationRequest ++ nl)%string ;;
      Printf ("  Duration to unmarshal pages: "
              ++ format_Duration env totalUnmarshalDuration ++ nl)%string
  end.

(** *** main (main.go, lines 120-135) *)

(** log.Fatal(msg): the message goes to the log, then os.Exit(1). *)
Definition log_Fatal {A : Type} (msg : string) (w : World) : Run A :=
  Exited 1 (w ++ [EvLogFatal msg]).

(** [arguments] is os.Args[1:].  flag.Parse() exits the process itself,
    with status 0 after -h or -help and with status 2 on a command line it
    rejects; the three flags are read once it has returned. *)
Definition main (arguments : list string) (fuel : nat) (w : World)
  : Run unit :=
  let (parsed, w0) := Parse arguments w in
  match parsed with
  | ParseHelp => Exited 0 w0
  | ParseError _ => Exited 2 w0
  | Parsed args =>
      let url := flag_String (flag_url args) "http://localhost:8090" in
      let hash := flag_String (flag_hash args) "" in
      let firstToken := flag_String (flag_token args) "" in
      if (len_string url =? 0) || (len_string hash =? 0)
         || (len_string firstToken =? 0)
      then log_Fatal "invalid arguments" w0
      else
        match consumeAllPages fuel url hash firstToken w0 with
        | Returned (pageCount, recordCounts, totalDurationRequest,
                    totalUnmarshalDuration, err) w1 =>
            let (_, w2) :=
              printConsumption hash firstToken pageCount recordCounts
                totalDurationRequest totalUnmarshalDuration err w1 in
            Returned tt w2
        | Panicked msg w1 => Panicked msg w1
        | Exited code w1 => Exited code w1
        | OutOfFuel w1 => OutOfFuel w1
        end
  end.

End Program.

(** ** A concrete environment, for running the program on examples *)

Module Demo.

Definition page (next : string) (records : list (list string)) : ResultSet :=
  {| Meta_ := {| NextToken := next |};
     Data_ := {| Header_ := {| Columns := [ {| Name := "id"; Type_ := "int"; Position := 0 |} ] |};
                 Records := records |} |}.

(** The scenario of the spec: page 1 has 3 records and next token "abc",
    page 2 has 5 records and no next token. *)
Definition pages : list ResultSet :=
  [ page "abc" [["1"]; ["2"]; ["3"]];
    page "" [["4"]; ["5"]; ["6"]; ["7"]; ["8"]] ].

(** The parser of the flag package for the three string flags of main:
    -name value, -name=value, with one or two dashes; it stops at the first
    argument that is no flag and at "--". *)
Fixpoint cut_at_equals (s : string) : string * option string :=
  match s with
  | EmptyString => (EmptyString, None)
  | String c s' =>
      if Ascii.eqb c "=" then (EmptyString, Some s')
      else let (name, value) := cut_at_equals s' in (String c name, value)
  end.

Definition set_flag (name value : string) (flags : CommandLine)
  : option CommandLine :=
  if String.eqb name "url" then
    Some {| flag_url := Some value; flag_hash := flag_hash flags;
            flag_token := flag_token flags |}
  else if String.eqb name "hash" then
    Some {| flag_url := flag_url flags; flag_hash := Some value;
            flag_token := flag_token flags |}
  else if String.eqb name "token" then
    Some {| flag_url := flag_url flags; flag_hash := flag_hash flags;
            flag_token := Some value |}
  else None.

Fixpoint parse_from (arguments : list string) (flags : CommandLine)
  : ParseResult :=
  match arguments with
  | [] => Parsed flags
  | s :: rest =>
      match s with
      | String "-" (String c s2 as s1) =>
          if Ascii.eqb c "-" && String.eqb s2 "" then Parsed flags
          else
            match (if Ascii.eqb c "-" then s2 else s1) with
            | EmptyString => ParseError ("bad flag syntax: " ++ s)
            | String c0 tail =>
                if Ascii.eqb c0 "-" || Ascii.eqb c0 "=" then
                  ParseError ("bad flag syntax: " ++ s)
                else
                  let (tail', value) := cut_at_equals tail in
                  let name := String c0 tail' in
                  match set_flag name "" flags with
                  | None =>
                      if String.eqb name "help" || String.eqb name "h"
                      then ParseHelp
                      else ParseError
                             ("flag provided but not defined: -" ++ name)
                  | Some _ =>
                      match value, rest with
                      | Some v, _ =>
                          match set_flag name v flags with
                          | Some flags' => parse_from rest flags'
                          | None => ParseError name
                          end
                      | None, v :: rest' =>
                          match set_flag name v flags with
                          | Some flags' => parse_from rest' flags'
                          | None => ParseError name
                          end
                      | None, [] =>
                          ParseError ("flag needs an argument: -" ++ name)
                      end
                  end
            end
      | _ => Parsed flags
      end
  end.

Definition parse (arguments : list string) : ParseResult :=
  parse_from arguments
    {| flag_url := None; flag_hash := None; flag_token := None |}.

(** A server that answers the n-th request with the n-th page of a
    script, as the body "page n", and refuses connections after it; a
    serializer that writes hash and token side by side; a clock that
    advances by 10 at each reading. *)
Definition body_of (n : nat) : string :=
  ("page " ++ NilZero.string_of_uint (Nat.to_uint n))%string.

Definition env_of (script : list ResultSet) : Env :=
  {| flag_Parse := parse;
     json_Marshal r := Ok (Hash r ++ "/" ++ Token r)%string;
     http_Post n _ _ _ :=
       if (n <? List.length script)%nat then Ok {| Body := body_of n |}
       else Failed "connection refused";
     json_Decode n body :=
       match nth_error script n with
       | Some rs => if String.eqb body (body_of n) then Ok rs
                    else Failed "invalid character"
       | None => Failed "EOF"
       end;
     time_Now n := 10 * Z.of_nat n;
     format_Duration d := (GoInt.format d ++ "ns")%string |}.

Definition env : Env := env_of pages.

(** The same server, with the columns of every header dropped. *)
Definition no_header (rs : ResultSet) : ResultSet :=
  {| Meta_ := Meta_ rs;
     Data_ := {| Header_ := {| Columns := [] |};
                 Records := Records (Data_ rs) |} |}.

(** A server that goes by the token of the request, not by how many
    requests came before, and sends the pages without column headers, in
    other bodies. *)
Definition env_by_token : Env :=
  {| flag_Parse := parse;
     json_Marshal r := Ok (Hash r ++ "/" ++ Token r)%string;
     http_Post _ _ _ body :=
       if String.eqb body "h/t0" then Ok {| Body := "first" |}
       else if String.eqb body "h/abc" then Ok {| Body := "second" |}
       else Ok {| Body := "404 page not found" |};
     json_Decode _ body :=
       if String.eqb body "first" then Ok (no_header (nth 0 pages (page "" [])))
       else if String.eqb body "second"
            then Ok (no_header (nth 1 pages (page "" [])))
            else Failed "invalid character 'p' after top-level value";
     time_Now n := 10 * Z.of_nat n;
     format_Duration d := (GoInt.format d ++ "ns")%string |}.

(** A server that goes away after the first page. *)
Definition env_first_page_only : Env := env_of (firstn 1 pages).

Definition run := consumeAllPages env 5 "http://localhost:8090" "h" "t0" [].

(** A server that always has one more page: every request is answered,
    every answer decodes, and the next token is never empty. *)
Definition env_endless : Env :=
  {| flag_Parse := parse;
     json_Marshal r := Ok (Hash r ++ "/" ++ Token r)%string;
     http_Post n _ _ _ := Ok {| Body := body_of n |};
     json_Decode n _ := Ok (page "more" [["x"]]);
     time_Now n := 10 * Z.of_nat n;
     format_Duration d := (GoInt.format d ++ "ns")%string |}.

(** An environment with another clock. *)
Definition with_clock (e : Env) (clock : nat -> Time) : Env :=
  {| flag_Parse := flag_Parse e;
     json_Marshal := json_Marshal e;
     http_Post := http_Post e;
     json_Decode := json_Decode e;
     time_Now := clock;
     format_Duration := format_Duration e |}.

(** The two-page server with a clock that stops at the largest reading. *)
Definition env_bounded_clock : Env :=
  with_clock env (fun n => Z.min (10 * Z.of_nat n) GoInt.max_int).

End Demo.

(** ** Notions the properties are stated with *)

(** The text written to standard output so far. *)
Fixpoint stdout (w : World) : string :=
  match w with
  | [] => ""
  | EvPrintf out :: w' => (out ++ stdout w')%string
  | _ :: w' => stdout w'
  end.

(** The exact sum of a sequence of integers. *)
Definition sum (l : list Z) : Z := fold_right Z.add 0 l.

(** The record count of a decoded page. *)
Definition record_count (rs : ResultSet) : Z := len (Records (Data_ rs)).

(** Serialization of a request never fails. *)
Definition marshals (env : Env) : Prop :=
  forall r, exists jsonData, json_Marshal env r = Ok jsonData.

(** The server answers the requests the client makes with [pages], in
    this order: the request for the first page is the serialized hash and
    [token], posted to url/page as JSON, and the request for each page
    after it carries the next token of the page before; every answer
    decodes to its page.  [posts] and [decodes] are the numbers of POSTs
    and of decodings made before. *)
Fixpoint serves (env : Env) (url hash token : string) (posts decodes : nat)
  (pages : list ResultSet) : Prop :=
  match pages with
  | [] => True
  | rs :: rest =>
      exists jsonData resp,
        json_Marshal env {| Hash := hash; Token := token |} = Ok jsonData /\
        http_Post env posts (url ++ "/page")%string "application/json"
          jsonData = Ok resp /\
        json_Decode env decodes (Body resp) = Ok rs /\
        serves env url hash (NextToken (Meta_ rs)) (S posts) (S decodes) rest
  end.

(** [fetches env url hash counts tok w tok' w']: starting with token [tok]
    in world [w], as many page fetches as [counts] is long succeed in a
    row, each on the non-empty token the one before returned; [counts] are
    their record counts in fetch order, and they leave token [tok'] and
    world [w']. *)
Inductive fetches (env : Env) (url hash : string)
  : list Z -> string -> World -> string -> World -> Prop :=
| fetches_none tok w : fetches env url hash [] tok w tok w
| fetches_next counts tok w next recordCount d1 d2 w1 tok' w' :
    tok <> "" ->
    consumePage env url hash tok w = ((next, recordCount, d1, d2, None), w1) ->
    fetches env url hash counts next w1 tok' w' ->
    fetches env url hash (recordCount :: counts) tok w tok' w'.

(** The calls a successful page fetch makes, in order. *)
Definition page_events (url hash token jsonData : string) (resp : Response)
  : list Event :=
  [ EvMarshal {| Hash := hash; Token := token |}; EvNow;
    EvPost (url ++ "/page")%string "application/json" jsonData; EvNow;
    EvDecode (Body resp); EvNow ].

(** The three ways a page fetch fails, in world [w]: serialization of the
    request, the HTTP call, decoding of the response. *)
Inductive page_failure (env : Env) (url hash token : string) (w : World)
  : error -> Prop :=
| marshal_fails err :
    json_Marshal env {| Hash := hash; Token := token |} = Failed err ->
    page_failure env url hash token w err
| post_fails jsonData err :
    json_Marshal env {| Hash := hash; Token := token |} = Ok jsonData ->
    http_Post env (count is_post w) (url ++ "/page")%string
      "application/json" jsonData = Failed err ->
    page_failure env url hash token w err
| decode_fails jsonData resp err :
    json_Marshal env {| Hash := hash; Token := token |} = Ok jsonData ->
    http_Post env (count is_post w) (url ++ "/page")%string
      "application/json" jsonData = Ok resp ->
    json_Decode env (count is_decode w) (Body resp) = Failed err ->
    page_failure env url hash token w err.

(** The loop invariant of [consumeAllPages]: the page count is the length
    of the record counts. *)
Definition counts_agree (st : LoopState) : Prop :=
  pageCount st = len (recordCounts st).

(** Two decoded responses with the same next token and the same records;
    their headers are free. *)
Definition same_rows (a b : ResultSet) : Prop :=
  NextToken (Meta_ a) = NextToken (Meta_ b) /\
  Records (Data_ a) = Records (Data_ b).

(** The page fetch for [token] in world [w] gets a response that decodes
    to [rs]. *)
Definition decodes_to (env : Env) (url hash token : string) (w : World)
  (rs : ResultSet) : Prop :=
  exists jsonData resp,
    json_Marshal env {| Hash := hash; Token := token |} = Ok jsonData /\
    http_Post env (count is_post w) (url ++ "/page")%string
      "application/json" jsonData = Ok resp /\
    json_Decode env (count is_decode w) (Body resp) = Ok rs.

(** A flag that is absent from the command line, or given as "". *)
Definition missing_or_empty (flag : option string) : Prop :=
  flag = None \/ flag = Some "".

(** The report as the specification's output format gives it. *)
Definition report (env : Env) (hash firstToken : string) (pages records : Z)
  (retrieve unmarshal : Duration) (err : option error) : string :=
  (("Hash: " ++ hash ++ ", First Token: " ++ firstToken ++ nl)
   ++ match err with
      | Some msg => "Error: " ++ msg ++ nl
      | None =>
          ("  Pages: " ++ GoInt.format pages ++ nl)
          ++ ("  Records: " ++ GoInt.format records ++ nl)
          ++ ("  Duration to retrieve pages: "
              ++ format_Duration env retrieve ++ nl)
          ++ ("  Duration to unmarshal pages: "
              ++ format_Duration env unmarshal ++ nl)
      end)%string.

(** The total the success case of the report shows is the exact sum of
    the record counts. *)
Definition reports_exact_sum (env : Env) (recordCounts : list Z) : Prop :=
  forall hash firstToken pageCount d1 d2 w,
    stdout (snd (printConsumption env hash firstToken pageCount recordCounts
                   d1 d2 None w))
    = (stdout w ++ report env hash firstToken pageCount (sum recordCounts)
                     d1 d2 None)%string.

(** On a command line that flag.Parse accepts, a missing or empty url,
    hash or token flag makes [main] exit with "invalid arguments" and
    status 1, with no other library call made. *)
Definition fatal_on_missing_or_empty (env : Env) (arguments : list string)
  : Prop :=
  forall args,
    flag_Parse env arguments = Parsed args ->
    missing_or_empty (flag_url args) \/ missing_or_empty (flag_hash args)
    \/ missing_or_empty (flag_token args) ->
    forall fuel w,
      main env arguments fuel w
      = Exited 1 (w ++ [EvParse arguments; EvLogFatal "invalid arguments"]).

(** ** Notions for the properties of whole runs *)

(** The values [main] reads its three flags to. *)
Definition arg_url (args : CommandLine) : string :=
  flag_String (flag_url args) "http://localhost:8090".
Definition arg_hash (args : CommandLine) : string :=
  flag_String (flag_hash args) "".
Definition arg_token (args : CommandLine) : string :=
  flag_String (flag_token args) "".

Definition is_printf (e : Event) : bool :=
  match e with EvPrintf _ => true | _ => false end.

(** The library calls of a page fetch. *)
Definition is_fetch_event (e : Event) : bool :=
  match e with
  | EvMarshal _ | EvNow | EvPost _ _ _ | EvDecode _ => true
  | EvParse _ | EvPrintf _ | EvLogFatal _ => false
  end.

(** A call addressed as the client was told: a request serialized with the
    given hash, a POST to the page endpoint of the given url with the JSON
    content type. *)
Definition well_addressed (url hash : string) (e : Event) : Prop :=
  match e with
  | EvMarshal r => Hash r = hash
  | EvPost u contentType _ =>
      u = (url ++ "/page")%string /\ contentType = "application/json"
  | _ => True
  end.

(** The clock never goes backwards. *)
Definition monotone_clock (env : Env) : Prop :=
  forall m n, (m <= n)%nat -> time_Now env m <= time_Now env n.

(** The clock readings are non-negative [int64] nanoseconds. *)
Definition clock_in_range (env : Env) : Prop :=
  forall n, 0 <= time_Now env n <= GoInt.max_int.

(** A server with no last page: serialization, every request and every
    decoding succeed, and every page has a next token. *)
Definition endless (env : Env) : Prop :=
  marshals env /\
  (forall n url contentType body,
      exists resp, http_Post env n url contentType body = Ok resp) /\
  (forall n body,
      exists rs, json_Decode env n body = Ok rs
                 /\ NextToken (Meta_ rs) <> "").

(** The calls of a page fetch that stops after the request is serialized,
    after the POST, after the decoding. *)
Definition marshal_events (hash token : string) : list Event :=
  [ EvMarshal {| Hash := hash; Token := token |} ].

Definition post_events (url hash token jsonData : string) : list Event :=
  [ EvMarshal {| Hash := hash; Token := token |}; EvNow;
    EvPost (url ++ "/page")%string "application/json" jsonData ].

Definition decode_events (url hash token jsonData : string) (resp : Response)
  : list Event :=
  [ EvMarshal {| Hash := hash; Token := token |}; EvNow;
    EvPost (url ++ "/page")%string "application/json" jsonData; EvNow;
    EvDecode (Body resp) ].

(** ** Facts about Go integers *)

Module GoIntFacts.
Import GoInt.

Lemma wrap_small z : in_range z -> wrap z = z.
Proof.
  unfold in_range, wrap, min_int, max_int. intros H.
  rewrite Z.mod_small; lia.
Qed.

Lemma wrap_add_l a b : wrap (wrap a + b) = wrap (a + b).
Proof.
  unfold wrap.
  replace (((a + 2 ^ 63) mod 2 ^ 64 - 2 ^ 63) + b + 2 ^ 63)
    with ((a + 2 ^ 63) mod 2 ^ 64 + b) by lia.
  replace (a + b + 2 ^ 63) with ((a + 2 ^ 63) + b) by lia.
  now rewrite Zplus_mod_idemp_l.
Qed.

End GoIntFacts.

(** ** Facts about worlds *)

Lemma count_app p w1 w2 : count p (w1 ++ w2) = (count p w1 + count p w2)%nat.
Proof. unfold count. now rewrite filter_app, length_app. Qed.

Lemma count_snoc p w e :
  count p (w ++ [e]) = if p e then S (count p w) else count p w.
Proof.
  rewrite count_app. unfold count. simpl. destruct (p e); simpl; lia.
Qed.

Lemma tokens_fetched_app w1 w2 :
  tokens_fetched (w1 ++ w2) = tokens_fetched w1 ++ tokens_fetched w2.
Proof.
  induction w1 as [|e w1 IH]; simpl; [reflexivity|].
  destruct e; simpl; now rewrite IH.
Qed.

Lemma string_app_assoc (a b c : string) :
  ((a ++ b) ++ c = a ++ (b ++ c))%string.
Proof. induction a as [|x a IH]; simpl; [reflexivity | now rewrite IH]. Qed.

Lemma string_app_nil_r (a : string) : (a ++ "" = a)%string.
Proof. induction a as [|x a IH]; simpl; [reflexivity | now rewrite IH]. Qed.

Lemma stdout_app w1 w2 : stdout (w1 ++ w2) = (stdout w1 ++ stdout w2)%string.
Proof.
  induction w1 as [|e w1 IH]; simpl; [reflexivity|].
  destruct e; simpl; rewrite ?IH; trivial.
  now rewrite string_app_assoc.
Qed.

Lemma string_nonempty s : (0 <? len_string s) = true <-> s <> "".
Proof.
  unfold len_string. destruct s; simpl; split; intros H; easy.
Qed.

(** ** Facts about consumePage *)

Section PageFacts.

Variable env : Env.
Variables url hash token : string.
Variable w : World.

Lemma consumePage_ok jsonData resp rs :
  json_Marshal env {| Hash := hash; Token := token |} = Ok jsonData ->
  http_Post env (count is_post w) (url ++ "/page")%string
    "application/json" jsonData = Ok resp ->
  json_Decode env (count is_decode w) (Body resp) = Ok rs ->
  consumePage env url hash token w
  = ((NextToken (Meta_ rs), record_count rs,
      time_Sub (time_Now env (1 + count is_now w))
               (time_Now env (count is_now w)),
      time_Sub (time_Now env (2 + count is_now w))
               (time_Now env (1 + count is_now w)),
      None),
     w ++ page_events url hash token jsonData resp).
Proof.
  intros Hm Hp Hd.
  unfold consumePage, bind, Marshal, Now, Post, Decode, ret.
  rewrite Hm. rewrite !count_snoc. simpl. rewrite Hp. simpl.
  rewrite !count_snoc. simpl. rewrite Hd. simpl.
  rewrite !count_snoc. simpl.
  unfold page_events, record_count. rewrite <- !app_assoc. reflexivity.
Qed.

(** A page fetch returns an error exactly when one of its three
    fallible steps fails, and then with that step's error. *)
Lemma consumePage_error err :
  snd (fst (consumePage env url hash token w)) = Some err ->
  page_failure env url hash token w err.
Proof.
  unfold consumePage, bind, Marshal, Now, Post, Decode, ret.
  destruct (json_Marshal env _) as [jsonData|e] eqn:Hm; simpl.
  2:{ intros [= <-]. apply marshal_fails. exact Hm. }
  rewrite !count_snoc; simpl.
  destruct (http_Post env _ _ _ jsonData) as [resp|e] eqn:Hp; simpl.
  2:{ intros [= <-]. apply post_fails with jsonData; [exact Hm | exact Hp]. }
  rewrite !count_snoc; simpl.
  destruct (json_Decode env _ (Body resp)) as [rs|e] eqn:Hd; simpl.
  - discriminate.
  - intros [= <-].
    apply decode_fails with jsonData resp; [exact Hm | exact Hp | exact Hd].
Qed.

(** The first thing a page fetch does is serialize its request, and it
    serializes nothing else. *)
Lemma consumePage_trace :
  exists evs,
    snd (consumePage env url hash token w)
    = w ++ EvMarshal {| Hash := hash; Token := token |} :: evs /\
    tokens_fetched evs = [].
Proof.
  unfold consumePage, bind, Marshal, Now, Post, Decode, ret.
  destruct (json_Marshal env _) as [jsonData|e]; simpl.
  2:{ exists []. auto. }
  destruct (http_Post env _ _ _ jsonData) as [resp|e]; simpl.
  2:{ eexists. rewrite <- !app_assoc. simpl. split; reflexivity. }
  destruct (json_Decode env _ (Body resp)) as [rs|e]; simpl;
    eexists; rewrite <- !app_assoc; simpl; split; reflexivity.
Qed.

End PageFacts.

(** ** consumePage: failures *)

(** C5.  Whatever the url, hash and token, when serialization of the
    request, the HTTP call or decoding of the response fails, consumePage
    returns that error with every other output zeroed: empty next token,
    record count 0, both durations 0. *)
Theorem consumePage_failure_zeroed env url hash token w err :
  page_failure env url hash token w err ->
  fst (consumePage env url hash token w) = ("", 0, 0, 0, Some err).
Proof.
  intros Hfail.
  unfold consumePage, bind, Marshal, Now, Post, Decode, ret.
  destruct Hfail as [err Hm | jsonData err Hm Hp | jsonData resp err Hm Hp Hd];
    rewrite Hm; simpl; trivial;
    rewrite !count_snoc; simpl; rewrite Hp; simpl; trivial.
  rewrite !count_snoc; simpl. rewrite Hd. reflexivity.
Qed.

Lemma consumePage_failure_zeroed_witness :
  fst (consumePage (Demo.env_of []) "http://localhost:8090" "h" "t0" [])
  = ("", 0, 0, 0, Some "connection refused").
Proof.
  apply consumePage_failure_zeroed.
  eapply post_fails; reflexivity.
Defined.

(** Conversely, an error comes with zeroed outputs, and from one of the
    three failures. *)
Lemma consumePage_error_zeroed env url hash token w err :
  snd (fst (consumePage env url hash token w)) = Some err ->
  fst (consumePage env url hash token w) = ("", 0, 0, 0, Some err).
Proof.
  unfold consumePage, bind, Marshal, Now, Post, Decode, ret.
  destruct (json_Marshal env _) as [jsonData|e]; simpl.
  2:{ now intros [= <-]. }
  destruct (http_Post env _ _ _ jsonData) as [resp|e]; simpl.
  2:{ now intros [= <-]. }
  destruct (json_Decode env _ (Body resp)) as [rs|e]; simpl.
  - discriminate.
  - now intros [= <-].
Qed.

(** ** consumeAllPages: the empty first token *)

(** C3.  With an empty first token consumeAllPages fetches no page (the
    world is left as it was) and returns page count 0, no record counts,
    zero durations and no error. *)
Theorem consumeAllPages_empty_token env fuel url hash w :
  consumeAllPages env (S fuel) url hash "" w = Returned (0, [], 0, 0, None) w.
Proof. reflexivity. Qed.

(** ** printConsumption *)

Lemma printConsumption_events env hash firstToken pageCount recordCounts
  d1 d2 err w :
  snd (printConsumption env hash firstToken pageCount recordCounts d1 d2 err w)
  = w ++ EvPrintf ("Hash: " ++ hash ++ ", First Token: " ++ firstToken ++ nl)
         :: match err with
            | Some msg => [ EvPrintf ("Error: " ++ msg ++ nl) ]
            | None =>
                [ EvPrintf ("  Pages: " ++ GoInt.format pageCount ++ nl);
                  EvPrintf ("  Records: "
                            ++ GoInt.format (total_records recordCounts) ++ nl);
                  EvPrintf ("  Duration to retrieve pages: "
                            ++ format_Duration env d1 ++ nl);
                  EvPrintf ("  Duration to unmarshal pages: "
                            ++ format_Duration env d2 ++ nl) ]
            end.
Proof.
  unfold printConsumption, bind, Printf.
  destruct err; simpl; rewrite <- !app_assoc; reflexivity.
Qed.

Lemma printConsumption_stdout env hash firstToken pageCount recordCounts
  d1 d2 err w :
  stdout (snd (printConsumption env hash firstToken pageCount recordCounts
                 d1 d2 err w))
  = (stdout w ++ report env hash firstToken pageCount
                   (total_records recordCounts) d1 d2 err)%string.
Proof.
  rewrite printConsumption_events, stdout_app. unfold report.
  destruct err; simpl; rewrite ?string_app_nil_r; reflexivity.
Qed.

(** C7.  printConsumption prints the hash and first-token line first,
    whatever its arguments; with an error it prints one error line after
    it and nothing else; without, the four summary lines.  What reaches
    standard output is the report of the specification's output format. *)
Theorem printConsumption_report env hash firstToken pageCount recordCounts
  d1 d2 err w :
  snd (printConsumption env hash firstToken pageCount recordCounts d1 d2 err w)
  = w ++ EvPrintf ("Hash: " ++ hash ++ ", First Token: " ++ firstToken ++ nl)
         :: match err with
            | Some msg => [ EvPrintf ("Error: " ++ msg ++ nl) ]
            | None =>
                [ EvPrintf ("  Pages: " ++ GoInt.format pageCount ++ nl);
                  EvPrintf ("  Records: "
                            ++ GoInt.format (total_records recordCounts) ++ nl);
                  EvPrintf ("  Duration to retrieve pages: "
                            ++ format_Duration env d1 ++ nl);
                  EvPrintf ("  Duration to unmarshal pages: "
                            ++ format_Duration env d2 ++ nl) ]
            end
  /\ stdout (snd (printConsumption env hash firstToken pageCount recordCounts
                    d1 d2 err w))
     = (stdout w ++ report env hash firstToken pageCount
                      (total_records recordCounts) d1 d2 err)%string.
Proof.
  split; [apply printConsumption_events | apply printConsumption_stdout].
Qed.

(** The total of lines 109-112 is the exact sum, wrapped to an [int]. *)
Lemma total_records_wrap recordCounts :
  total_records recordCounts = GoInt.wrap (sum recordCounts).
Proof.
  unfold total_records.
  assert (G : forall l acc,
             fold_left GoInt.add l (GoInt.wrap acc) = GoInt.wrap (acc + sum l)).
  { induction l as [|x l IH]; intros acc; simpl.
    - now rewrite Z.add_0_r.
    - unfold GoInt.add at 2. rewrite GoIntFacts.wrap_add_l, IH.
      f_equal. lia. }
  specialize (G recordCounts 0). rewrite Z.add_0_l in G.
  rewrite <- G. reflexivity.
Qed.

(** C6, as stated, fails: the total is computed in [int], and the exact
    sum of two record counts need not be one. *)
Lemma reports_exact_sum_overflow :
  ~ reports_exact_sum Demo.env [9223372036854775807; 1].
Proof.
  intros H. specialize (H "h" "t0" 2 0 0 []).
  vm_compute in H. discriminate H.
Qed.

(** C6, amended.  In the success case the total record count that
    printConsumption prints is the sum of the record counts wrapped to the
    64-bit [int]; it is the exact sum whenever that sum is an [int]. *)
Theorem printConsumption_total env recordCounts :
  (forall hash firstToken pageCount d1 d2 w,
      stdout (snd (printConsumption env hash firstToken pageCount recordCounts
                     d1 d2 None w))
      = (stdout w ++ report env hash firstToken pageCount
                       (GoInt.wrap (sum recordCounts)) d1 d2 None)%string)
  /\ (GoInt.in_range (sum recordCounts) -> reports_exact_sum env recordCounts).
Proof.
  assert (E : forall hash firstToken pageCount d1 d2 w,
      stdout (snd (printConsumption env hash firstToken pageCount recordCounts
                     d1 d2 None w))
      = (stdout w ++ report env hash firstToken pageCount
                       (GoInt.wrap (sum recordCounts)) d1 d2 None)%string).
  { intros. rewrite <- total_records_wrap.
    apply printConsumption_stdout. }
  split; [exact E|].
  intros Hr hash firstToken pageCount d1 d2 w.
  rewrite E, GoIntFacts.wrap_small by exact Hr. reflexivity.
Qed.

Lemma printConsumption_total_witness : reports_exact_sum Demo.env [3; 5].
Proof.
  apply (proj2 (printConsumption_total Demo.env [3; 5])).
  vm_compute. split; discriminate.
Defined.

(** ** Facts about the loop of consumeAllPages *)

Section LoopFacts.

Variable env : Env.
Variables url hash : string.

Lemma len_snoc {A} (l : list A) (x : A) : len (l ++ [x]) = len l + 1.
Proof. unfold len. rewrite length_app. simpl. lia. Qed.

Lemma len_nonneg {A} (l : list A) : 0 <= len l.
Proof. unfold len. lia. Qed.

Lemma append_some {A} (l : list A) (x : A) l' :
  append l x = Some l' -> l' = l ++ [x] /\ len l < GoInt.max_int.
Proof.
  unfold append. destruct (len l <? GoInt.max_int) eqn:E; [|discriminate].
  intros [= <-]. split; [reflexivity | now apply Z.ltb_lt].
Qed.

Lemma append_fits {A} (l : list A) (x : A) :
  len l < GoInt.max_int -> append l x = Some (l ++ [x]).
Proof.
  unfold append. intros H. apply Z.ltb_lt in H. now rewrite H.
Qed.

Lemma increment_fits z : 0 <= z < GoInt.max_int -> GoInt.add z 1 = z + 1.
Proof.
  intros H. unfold GoInt.add. apply GoIntFacts.wrap_small.
  unfold GoInt.in_range, GoInt.min_int, GoInt.max_int in *. lia.
Qed.

(** With an empty token the loop condition fails: the function returns
    what it has accumulated. *)
Lemma iteration_empty st w :
  nextToken st = "" ->
  iteration env url hash st w
  = Leave (pageCount st, recordCounts st, totalDurationRequest st,
           totalUnmarshalDuration st, None) w.
Proof. unfold iteration. intros ->. reflexivity. Qed.

(** A failing fetch ends the loop with the zero result. *)
Lemma iteration_error st w r w1 err :
  nextToken st <> "" ->
  consumePage env url hash (nextToken st) w = (r, w1) ->
  snd r = Some err ->
  iteration env url hash st w = Leave (0, [], 0, 0, Some err) w1.
Proof.
  intros Hne Hp He. unfold iteration.
  apply string_nonempty in Hne. rewrite Hne, Hp.
  destruct r as [[[[token recordCount] d1] d2] e]. simpl in He.
  now subst e.
Qed.

(** A successful fetch updates the loop variables. *)
Lemma iteration_ok st w next recordCount d1 d2 w1 :
  nextToken st <> "" ->
  consumePage env url hash (nextToken st) w
  = ((next, recordCount, d1, d2, None), w1) ->
  len (recordCounts st) < GoInt.max_int ->
  iteration env url hash st w
  = Continue {| nextToken := next;
                pageCount := GoInt.add (pageCount st) 1;
                recordCounts := recordCounts st ++ [recordCount];
                totalDurationRequest :=
                  GoInt.add (totalDurationRequest st) d1;
                totalUnmarshalDuration :=
                  GoInt.add (totalUnmarshalDuration st) d2 |} w1.
Proof.
  intros Hne Hp Hlen. unfold iteration.
  apply string_nonempty in Hne. rewrite Hne, Hp.
  now rewrite append_fits.
Qed.

(** The invariant is kept by an iteration that goes back to the loop
    condition. *)
Lemma iteration_counts_agree st w st' w' :
  counts_agree st ->
  iteration env url hash st w = Continue st' w' ->
  counts_agree st'.
Proof.
  unfold iteration, counts_agree. intros Hinv.
  destruct (0 <? len_string (nextToken st)); [|discriminate].
  destruct (consumePage env url hash (nextToken st) w)
    as [[[[[token recordCount] d1] d2] err] w1].
  destruct err; [discriminate|].
  destruct (append (recordCounts st) recordCount) as [counts|] eqn:Ha;
    [|discriminate].
  intros [= <- <-]. simpl.
  apply append_some in Ha as [-> Hlt].
  rewrite len_snoc, <- Hinv. apply increment_fits.
  rewrite Hinv. pose proof (len_nonneg (recordCounts st)). lia.
Qed.

Lemma loop_counts_agree fuel : forall st w pc rc d1 d2 err w',
  counts_agree st ->
  loop env fuel url hash st w = Returned (pc, rc, d1, d2, err) w' ->
  pc = len rc.
Proof.
  induction fuel as [|fuel IH]; intros st w pc rc d1 d2 err w' Hinv;
    simpl; [discriminate|].
  destruct (iteration env url hash st w) as [st1 w1 | r w1 | msg w1] eqn:Hit.
  - apply IH. eapply iteration_counts_agree; eassumption.
  - intros [= -> ->]. revert Hit. unfold iteration.
    destruct (0 <? len_string (nextToken st)).
    + destruct (consumePage env url hash (nextToken st) w)
        as [[[[[token recordCount] e1] e2] e] w2].
      destruct e; [now intros [= <- <- _ _ _ _] |].
      destruct (append (recordCounts st) recordCount); discriminate.
    + now intros [= <- <- _ _ _ _].
  - discriminate.
Qed.

(** Every token the loop fetches a page for is non-empty, also in runs
    that panic or are cut short. *)
Lemma loop_tokens_nonempty fuel : forall st w,
  exists evs,
    final_world (loop env fuel url hash st w) = w ++ evs /\
    Forall (fun tok => tok <> "") (tokens_fetched evs).
Proof.
  induction fuel as [|fuel IH]; intros st w; simpl.
  { exists []. rewrite app_nil_r. split; [reflexivity | constructor]. }
  unfold iteration.
  destruct (0 <? len_string (nextToken st)) eqn:Hne.
  2:{ exists []. rewrite app_nil_r. split; [reflexivity | constructor]. }
  apply string_nonempty in Hne.
  destruct (consumePage_trace env url hash (nextToken st) w)
    as (evs0 & Hw & Htok).
  destruct (consumePage env url hash (nextToken st) w)
    as [[[[[token recordCount] d1] d2] err] w1].
  simpl in Hw. subst w1.
  assert (Hhere : Forall (fun tok => tok <> "")
                    (tokens_fetched
                       (EvMarshal {| Hash := hash; Token := nextToken st |}
                          :: evs0))).
  { simpl. rewrite Htok. repeat constructor. exact Hne. }
  destruct err as [e|].
  { eexists. split; [reflexivity | exact Hhere]. }
  destruct (append (recordCounts st) recordCount) as [counts|].
  2:{ eexists. split; [reflexivity | exact Hhere]. }
  match goal with
  | |- context [loop env fuel url hash ?st' ?w'] =>
      destruct (IH st' w') as (evs1 & Hw1 & Htok1)
  end.
  exists ((EvMarshal {| Hash := hash; Token := nextToken st |} :: evs0)
          ++ evs1).
  split.
  - rewrite Hw1. now rewrite <- app_assoc.
  - rewrite tokens_fetched_app. apply Forall_app. split; assumption.
Qed.

(** The loop follows a row of successful fetches, adding one record
    count per page. *)
Lemma loop_fetches counts tok w tok' w' :
  fetches env url hash counts tok w tok' w' ->
  forall st,
    nextToken st = tok ->
    counts_agree st ->
    len (recordCounts st) + len counts <= GoInt.max_int ->
    exists st',
      nextToken st' = tok' /\
      pageCount st' = pageCount st + len counts /\
      recordCounts st' = recordCounts st ++ counts /\
      forall fuel,
        loop env (List.length counts + fuel) url hash st w
        = loop env fuel url hash st' w'.
Proof.
  induction 1 as [tok w | counts tok w next recordCount d1 d2 w1 tok' w'
                             Hne Hp Hrest IH];
    intros st Htok Hinv Hlen.
  - exists st. rewrite app_nil_r. unfold len. simpl.
    repeat split; auto; lia.
  - assert (Hlt : len (recordCounts st) < GoInt.max_int).
    { unfold len in *. simpl List.length in Hlen. lia. }
    subst tok.
    pose proof (iteration_ok st w next recordCount d1 d2 w1 Hne Hp Hlt)
      as Hit.
    match type of Hit with
    | _ = Continue ?s _ => destruct (IH s) as (st' & Ht' & Hpc & Hrc & Hloop)
    end.
    + reflexivity.
    + eapply iteration_counts_agree; eassumption.
    + simpl. rewrite len_snoc. unfold len in *. simpl List.length in Hlen.
      lia.
    + exists st'. simpl in Hpc, Hrc. repeat split.
      * exact Ht'.
      * rewrite Hpc, increment_fits.
        -- unfold len. simpl List.length. lia.
        -- rewrite Hinv. pose proof (len_nonneg (recordCounts st)). lia.
      * rewrite Hrc, <- app_assoc. reflexivity.
      * intros fuel. simpl. rewrite Hit. apply Hloop.
Qed.

End LoopFacts.

(** ** From what the server answers to what the loop fetches *)

Section Serving.

Variable env : Env.
Variables url hash : string.

Lemma count_page_events p w token jsonData resp :
  count p (w ++ page_events url hash token jsonData resp)
  = (count p w + count p (page_events url hash token jsonData resp))%nat.
Proof. apply count_app. Qed.

(** When the server answers the requests made with the pages, the
    fetches succeed in a row, one per page, each on the token the page
    before returned. *)
Lemma serves_fetches last :
  NextToken (Meta_ last) = "" ->
  forall front tok w,
    tok <> "" ->
    serves env url hash tok (count is_post w) (count is_decode w)
      (front ++ [last]) ->
    Forall (fun rs => NextToken (Meta_ rs) <> "") front ->
    exists evs,
      fetches env url hash (map record_count (front ++ [last]))
        tok w "" (w ++ evs) /\
      tokens_fetched evs
      = tok :: map (fun rs => NextToken (Meta_ rs)) front.
Proof.
  intros Hlast.
  induction front as [|rs front IH]; intros tok w Hne Hs Hfront;
    cbn [app map serves] in *;
    destruct Hs as (jsonData & resp & Hm & Hp & Hd & Hrest);
    pose proof (consumePage_ok env url hash tok w jsonData resp _ Hm Hp Hd)
      as Hpage.
  - rewrite Hlast in Hpage.
    exists (page_events url hash tok jsonData resp). split.
    + eapply fetches_next; [exact Hne | exact Hpage | apply fetches_none].
    + reflexivity.
  - inversion Hfront as [|? ? Hrs Hfront']; subst.
    destruct (IH (NextToken (Meta_ rs))
                (w ++ page_events url hash tok jsonData resp) Hrs)
      as (evs & Hf & Htok).
    + rewrite !count_page_events.
      change (count is_post (page_events url hash tok jsonData resp))
        with 1%nat.
      change (count is_decode (page_events url hash tok jsonData resp))
        with 1%nat.
      rewrite !Nat.add_1_r. exact Hrest.
    + exact Hfront'.
    + exists (page_events url hash tok jsonData resp ++ evs). split.
      * rewrite app_assoc.
        eapply fetches_next; [exact Hne | exact Hpage | exact Hf].
      * rewrite tokens_fetched_app, Htok. reflexivity.
Qed.

End Serving.

(** ** consumeAllPages *)

(** C1.  When the server answers the N requests the client makes with N
    pages that decode, the next token being non-empty on all but the last
    and empty on the last, and the first token is non-empty,
    consumeAllPages returns without error page count N and the record
    counts of the N pages in fetch order: the i-th page was fetched on the
    token the page before it returned, the first on the first token.  N is
    the length of a slice, hence an [int]; any fuel above N is enough. *)
Theorem consumeAllPages_all_pages env url hash firstToken w front last fuel :
  serves env url hash firstToken (count is_post w) (count is_decode w)
    (front ++ [last]) ->
  Forall (fun rs => NextToken (Meta_ rs) <> "") front ->
  NextToken (Meta_ last) = "" ->
  firstToken <> "" ->
  len (front ++ [last]) <= GoInt.max_int ->
  (List.length (front ++ [last]) < fuel)%nat ->
  exists d1 d2 evs,
    consumeAllPages env fuel url hash firstToken w
    = Returned (len (front ++ [last]), map record_count (front ++ [last]),
                d1, d2, None) (w ++ evs)
    /\ tokens_fetched evs
       = firstToken :: map (fun rs => NextToken (Meta_ rs)) front.
Proof.
  intros Hs Hfront Hlast Hne Hlen Hfuel.
  destruct (serves_fetches env url hash last Hlast front firstToken w
              Hne Hs Hfront) as (evs & Hf & Htok).
  destruct (loop_fetches env url hash _ _ _ _ _ Hf (initial firstToken))
    as (st' & Ht' & Hpc & Hrc & Hloop).
  - reflexivity.
  - reflexivity.
  - simpl. unfold len in *. rewrite length_map. lia.
  - exists (totalDurationRequest st'), (totalUnmarshalDuration st'), evs.
    split; [|exact Htok].
    unfold consumeAllPages.
    rewrite length_map in Hloop.
    replace fuel
      with (List.length (front ++ [last])
            + S (fuel - S (List.length (front ++ [last]))))%nat by lia.
    rewrite Hloop. simpl. rewrite (iteration_empty _ _ _ _ _ Ht').
    rewrite Hpc, Hrc. simpl. unfold len. now rewrite length_map.
Qed.

Lemma consumeAllPages_all_pages_witness :
  exists d1 d2 evs,
    consumeAllPages Demo.env_by_token 5 "http://localhost:8090" "h" "t0" []
    = Returned (2, [3; 5], d1, d2, None) ([] ++ evs)
    /\ tokens_fetched evs = ["t0"; "abc"].
Proof.
  apply (consumeAllPages_all_pages Demo.env_by_token "http://localhost:8090"
           "h" "t0" []
           [Demo.no_header (Demo.page "abc" [["1"]; ["2"]; ["3"]])]
           (Demo.no_header
              (Demo.page "" [["4"]; ["5"]; ["6"]; ["7"]; ["8"]])) 5).
  - exists "h/t0", {| Body := "first" |}.
    repeat split.
    exists "h/abc", {| Body := "second" |}.
    repeat split.
  - repeat constructor. discriminate.
  - reflexivity.
  - discriminate.
  - vm_compute. discriminate.
  - simpl. lia.
Defined.

(** C2.  In a run where a page fetch returns an error, after any number
    of successful ones, consumeAllPages returns page count 0, no record
    counts, zero durations and that error; the world it leaves is the one
    the failing fetch left, so nothing is fetched after it. *)
Theorem consumeAllPages_error env url hash firstToken w counts tok wk r w' err
  fuel :
  fetches env url hash counts firstToken w tok wk ->
  tok <> "" ->
  consumePage env url hash tok wk = (r, w') ->
  snd r = Some err ->
  len counts <= GoInt.max_int ->
  (List.length counts < fuel)%nat ->
  consumeAllPages env fuel url hash firstToken w
  = Returned (0, [], 0, 0, Some err) w'.
Proof.
  intros Hf Hne Hp He Hlen Hfuel.
  destruct (loop_fetches env url hash _ _ _ _ _ Hf (initial firstToken))
    as (st' & Ht' & _ & _ & Hloop).
  - reflexivity.
  - reflexivity.
  - simpl. unfold len in *. lia.
  - unfold consumeAllPages.
    replace fuel
      with (List.length counts + S (fuel - S (List.length counts)))%nat by lia.
    rewrite Hloop. simpl. subst tok.
    now rewrite (iteration_error env url hash st' wk r w' err Hne Hp He).
Qed.

Lemma consumeAllPages_error_witness :
  consumeAllPages Demo.env_first_page_only 5 "http://localhost:8090" "h" "t0" []
  = Returned (0, [], 0, 0, Some "connection refused")
      (page_events "http://localhost:8090" "h" "t0" "h/t0" {| Body := "page 0" |}
       ++ [ EvMarshal {| Hash := "h"; Token := "abc" |}; EvNow;
            EvPost "http://localhost:8090/page" "application/json" "h/abc" ]).
Proof.
  eapply (consumeAllPages_error Demo.env_first_page_only
            "http://localhost:8090" "h" "t0" [] [3] "abc").
  - eapply fetches_next; [discriminate | reflexivity | apply fetches_none].
  - discriminate.
  - reflexivity.
  - reflexivity.
  - vm_compute. discriminate.
  - simpl. lia.
Defined.

(** An error is never returned with anything but the zero result. *)
Lemma consumeAllPages_error_is_zero env fuel url hash firstToken w
  pc rc d1 d2 err w' :
  consumeAllPages env fuel url hash firstToken w
  = Returned (pc, rc, d1, d2, Some err) w' ->
  pc = 0 /\ rc = [] /\ d1 = 0 /\ d2 = 0.
Proof.
  unfold consumeAllPages. generalize (initial firstToken) as st. revert w.
  induction fuel as [|fuel IH]; intros w st; simpl; [discriminate|].
  destruct (iteration env url hash st w) as [st1 w1 | res w1 | msg w1] eqn:Hit;
    [apply IH | | discriminate].
  intros [= ->]. revert Hit. unfold iteration.
  destruct (0 <? len_string (nextToken st)); [|discriminate].
  destruct (consumePage env url hash (nextToken st) w)
    as [[[[[token recordCount] e1] e2] e] w2].
  destruct e; [now intros [= <- <- <- <- _ _] |].
  destruct (append (recordCounts st) recordCount); discriminate.
Qed.

(** C4.  In every run of the loop, finished, panicked or cut short, each
    token a page is fetched for is non-empty; and with an empty token the
    loop condition fails, so the function returns without a fetch. *)
Theorem never_fetches_empty_token env url hash :
  (forall fuel firstToken w,
      exists evs,
        final_world (consumeAllPages env fuel url hash firstToken w) = w ++ evs
        /\ Forall (fun tok => tok <> "") (tokens_fetched evs))
  /\ (forall pc rc d1 d2 w,
         iteration env url hash
           {| pageCount := pc; recordCounts := rc; totalDurationRequest := d1;
              totalUnmarshalDuration := d2; nextToken := "" |} w
         = Leave (pc, rc, d1, d2, None) w).
Proof.
  split.
  - intros fuel firstToken w. apply loop_tokens_nonempty.
  - reflexivity.
Qed.

(** C9.  The equality of the page count and the length of the record
    counts is kept by every iteration of the loop, and holds of what
    consumeAllPages returns, with or without error. *)
Theorem pageCount_is_len_recordCounts env url hash :
  (forall st w st' w',
      counts_agree st ->
      iteration env url hash st w = Continue st' w' ->
      counts_agree st')
  /\ (forall fuel firstToken w pc rc d1 d2 err w',
         consumeAllPages env fuel url hash firstToken w
         = Returned (pc, rc, d1, d2, err) w' ->
         pc = len rc).
Proof.
  split.
  - apply iteration_counts_agree.
  - intros fuel firstToken w pc rc d1 d2 err w' H.
    eapply loop_counts_agree; [|exact H]. reflexivity.
Qed.

Lemma pageCount_is_len_recordCounts_witness : 2 = len [3; 5].
Proof.
  eapply (proj2 (pageCount_is_len_recordCounts Demo.env
                   "http://localhost:8090" "h")
            5%nat "t0" [] 2 [3; 5]).
  reflexivity.
Defined.

(** C10.  Any two page fetches, by whatever servers, urls, hashes and
    tokens and in whatever worlds, whose responses decode to the same next
    token and the same records, return the same next token and the same
    record count, and no error, however the headers of the two responses
    differ. *)
Theorem header_never_observed
  env1 url1 hash1 token1 w1 rs1 next1 count1 d1 e1 err1 w1'
  env2 url2 hash2 token2 w2 rs2 next2 count2 d2 e2 err2 w2' :
  decodes_to env1 url1 hash1 token1 w1 rs1 ->
  decodes_to env2 url2 hash2 token2 w2 rs2 ->
  same_rows rs1 rs2 ->
  consumePage env1 url1 hash1 token1 w1 = ((next1, count1, d1, e1, err1), w1') ->
  consumePage env2 url2 hash2 token2 w2 = ((next2, count2, d2, e2, err2), w2') ->
  next1 = next2 /\ count1 = count2 /\ err1 = None /\ err2 = None.
Proof.
  intros (j1 & r1 & Hm1 & Hp1 & Hd1) (j2 & r2 & Hm2 & Hp2 & Hd2)
    [Hnext Hrec] H1 H2.
  rewrite (consumePage_ok env1 url1 hash1 token1 w1 j1 r1 rs1 Hm1 Hp1 Hd1)
    in H1.
  rewrite (consumePage_ok env2 url2 hash2 token2 w2 j2 r2 rs2 Hm2 Hp2 Hd2)
    in H2.
  injection H1 as <- <- _ _ <- _. injection H2 as <- <- _ _ <- _.
  unfold record_count. rewrite Hnext, Hrec. auto.
Qed.

Lemma header_never_observed_witness :
  "abc" = "abc" /\ 3 = 3 /\ @None error = None /\ @None error = None.
Proof.
  apply (header_never_observed
           Demo.env "http://localhost:8090" "h" "t0" []
           (Demo.page "abc" [["1"]; ["2"]; ["3"]]) "abc" 3 10 10 None
           (page_events "http://localhost:8090" "h" "t0" "h/t0"
              {| Body := "page 0" |})
           Demo.env_by_token "http://proxy:9000" "h" "t0" [EvNow]
           (Demo.no_header (Demo.page "abc" [["1"]; ["2"]; ["3"]]))
           "abc" 3 10 10 None
           ([EvNow] ++ page_events "http://proxy:9000" "h" "t0" "h/t0"
                         {| Body := "first" |})).
  - exists "h/t0", {| Body := "page 0" |}. repeat split.
  - exists "h/t0", {| Body := "first" |}. repeat split.
  - split; reflexivity.
  - reflexivity.
  - reflexivity.
Defined.

(** ** consumePage, call by call *)

(** How far a page fetch gets, what it returns and the calls it makes. *)
Lemma consumePage_cases env url hash token w :
  (exists err,
      json_Marshal env {| Hash := hash; Token := token |} = Failed err /\
      consumePage env url hash token w
      = (("", 0, 0, 0, Some err), w ++ marshal_events hash token))
  \/ (exists jsonData err,
         json_Marshal env {| Hash := hash; Token := token |} = Ok jsonData /\
         http_Post env (count is_post w) (url ++ "/page")%string
           "application/json" jsonData = Failed err /\
         consumePage env url hash token w
         = (("", 0, 0, 0, Some err), w ++ post_events url hash token jsonData))
  \/ (exists jsonData resp err,
         json_Marshal env {| Hash := hash; Token := token |} = Ok jsonData /\
         http_Post env (count is_post w) (url ++ "/page")%string
           "application/json" jsonData = Ok resp /\
         json_Decode env (count is_decode w) (Body resp) = Failed err /\
         consumePage env url hash token w
         = (("", 0, 0, 0, Some err),
            w ++ decode_events url hash token jsonData resp))
  \/ (exists jsonData resp rs,
         json_Marshal env {| Hash := hash; Token := token |} = Ok jsonData /\
         http_Post env (count is_post w) (url ++ "/page")%string
           "application/json" jsonData = Ok resp /\
         json_Decode env (count is_decode w) (Body resp) = Ok rs /\
         consumePage env url hash token w
         = ((NextToken (Meta_ rs), record_count rs,
             time_Sub (time_Now env (1 + count is_now w))
                      (time_Now env (count is_now w)),
             time_Sub (time_Now env (2 + count is_now w))
                      (time_Now env (1 + count is_now w)),
             None),
            w ++ page_events url hash token jsonData resp)).
Proof.
  destruct (json_Marshal env {| Hash := hash; Token := token |})
    as [jsonData|err] eqn:Hm.
  2:{ left. exists err. split; [reflexivity|].
      unfold consumePage, bind, Marshal, ret. now rewrite Hm. }
  right.
  destruct (http_Post env (count is_post w) (url ++ "/page")%string
              "application/json" jsonData) as [resp|err] eqn:Hp.
  2:{ left. exists jsonData, err. repeat split; trivial.
      unfold consumePage, bind, Marshal, Now, Post, ret.
      rewrite Hm. rewrite !count_snoc. simpl. rewrite Hp.
      unfold post_events. now rewrite <- !app_assoc. }
  right.
  destruct (json_Decode env (count is_decode w) (Body resp))
    as [rs|err] eqn:Hd.
  2:{ left. exists jsonData, resp, err. repeat split; trivial.
      unfold consumePage, bind, Marshal, Now, Post, Decode, ret.
      rewrite Hm. rewrite !count_snoc. simpl. rewrite Hp. simpl.
      rewrite !count_snoc. simpl. rewrite Hd.
      unfold decode_events. now rewrite <- !app_assoc. }
  right. exists jsonData, resp, rs. repeat split; trivial.
  now apply consumePage_ok.
Qed.

(** The calls of a page fetch, whatever becomes of it. *)
Lemma consumePage_events env url hash token w :
  exists evs,
    snd (consumePage env url hash token w) = w ++ evs /\
    Forall (fun e => is_fetch_event e = true /\ well_addressed url hash e) evs.
Proof.
  destruct (consumePage_cases env url hash token w)
    as [(err & _ & E) | [(jsonData & err & _ & _ & E)
       | [(jsonData & resp & err & _ & _ & _ & E)
         | (jsonData & resp & rs & _ & _ & _ & E)]]];
    rewrite E; simpl; eexists; (split; [reflexivity|]);
    repeat constructor.
Qed.

Lemma time_Sub_nonneg t u : u <= t -> 0 <= time_Sub t u.
Proof.
  unfold time_Sub, GoInt.min_int, GoInt.max_int. intros H. lia.
Qed.

Lemma time_Sub_exact t u :
  0 <= u <= t -> t <= GoInt.max_int -> time_Sub t u = t - u.
Proof.
  unfold time_Sub, GoInt.min_int, GoInt.max_int. intros H1 H2. lia.
Qed.

(** X1.  When consumePage returns no error, the request was serialized,
    posted once and the response decoded; the next token and the record
    count, which is not negative, are those of the decoded response, and
    the calls made are serialization, clock, POST of the serialized request
    to url/page as application/json, clock, decoding, clock. *)
Theorem consumePage_success env url hash token w next recordCount d1 d2 w' :
  consumePage env url hash token w = ((next, recordCount, d1, d2, None), w') ->
  exists jsonData resp rs,
    json_Marshal env {| Hash := hash; Token := token |} = Ok jsonData /\
    http_Post env (count is_post w) (url ++ "/page")%string
      "application/json" jsonData = Ok resp /\
    json_Decode env (count is_decode w) (Body resp) = Ok rs /\
    next = NextToken (Meta_ rs) /\
    recordCount = len (Records (Data_ rs)) /\
    0 <= recordCount /\
    w' = w ++ [ EvMarshal {| Hash := hash; Token := token |}; EvNow;
                EvPost (url ++ "/page")%string "application/json" jsonData;
                EvNow; EvDecode (Body resp); EvNow ].
Proof.
  intros H.
  destruct (consumePage_cases env url hash token w)
    as [(err & _ & E) | [(jsonData & err & _ & _ & E)
       | [(jsonData & resp & err & _ & _ & _ & E)
         | (jsonData & resp & rs & Hm & Hp & Hd & E)]]];
    rewrite E in H; try discriminate H.
  injection H as <- <- _ _ <-.
  exists jsonData, resp, rs. repeat split; trivial.
  unfold record_count, len. lia.
Qed.

Lemma consumePage_success_witness :
  exists jsonData resp rs,
    json_Marshal Demo.env {| Hash := "h"; Token := "t0" |} = Ok jsonData /\
    http_Post Demo.env (count is_post []) "http://localhost:8090/page"
      "application/json" jsonData = Ok resp /\
    json_Decode Demo.env (count is_decode []) (Body resp) = Ok rs /\
    "abc" = NextToken (Meta_ rs) /\
    3 = len (Records (Data_ rs)) /\
    0 <= 3 /\
    page_events "http://localhost:8090" "h" "t0" "h/t0" {| Body := "page 0" |}
    = [] ++ [ EvMarshal {| Hash := "h"; Token := "t0" |}; EvNow;
              EvPost "http://localhost:8090/page" "application/json" jsonData;
              EvNow; EvDecode (Body resp); EvNow ].
Proof.
  apply (consumePage_success Demo.env "http://localhost:8090" "h" "t0" []
           "abc" 3 10 10).
  reflexivity.
Defined.

(** X2.  consumePage does not retry and does not go on after a failure:
    a call makes at most one POST, decodes at most once and only after a
    POST, and reads the clock at most three times; a call that returns no
    error made exactly one POST, one decoding and three clock readings; a
    call whose request fails to serialize makes no POST and reads no
    clock. *)
Theorem consumePage_no_retry env url hash token w :
  exists evs,
    snd (consumePage env url hash token w) = w ++ evs /\
    (count is_post evs <= 1)%nat /\
    (count is_decode evs <= count is_post evs)%nat /\
    (count is_now evs <= 3)%nat /\
    (snd (fst (consumePage env url hash token w)) = None ->
     count is_post evs = 1%nat /\ count is_decode evs = 1%nat
     /\ count is_now evs = 3%nat) /\
    ((exists err, json_Marshal env {| Hash := hash; Token := token |}
                  = Failed err) ->
     count is_post evs = 0%nat /\ count is_now evs = 0%nat).
Proof.
  destruct (consumePage_cases env url hash token w)
    as [(err & Hm & E) | [(jsonData & err & Hm & _ & E)
       | [(jsonData & resp & err & Hm & _ & _ & E)
         | (jsonData & resp & rs & Hm & _ & _ & E)]]];
    rewrite E; simpl; eexists; (split; [reflexivity|]);
    unfold count; simpl; repeat split; auto; try lia; try discriminate;
    try match goal with
        | H : exists _, json_Marshal _ _ = Failed _ |- _ =>
            destruct H as (err' & Herr); rewrite Hm in Herr; discriminate Herr
        end.
Qed.

(** X3.  With a clock that never goes backwards, neither duration that
    consumePage returns is negative, on success or on error. *)
Theorem consumePage_durations_nonneg env url hash token w
  next recordCount d1 d2 err w' :
  monotone_clock env ->
  consumePage env url hash token w = ((next, recordCount, d1, d2, err), w') ->
  0 <= d1 /\ 0 <= d2.
Proof.
  intros Hmono H.
  destruct (consumePage_cases env url hash token w)
    as [(e & _ & E) | [(jsonData & e & _ & _ & E)
       | [(jsonData & resp & e & _ & _ & _ & E)
         | (jsonData & resp & rs & _ & _ & _ & E)]]];
    rewrite E in H; injection H as <- <- <- <- <- <-; try lia.
  split; apply time_Sub_nonneg; apply Hmono; auto with arith.
Qed.

Lemma consumePage_durations_nonneg_witness : 0 <= 10 /\ 0 <= 10.
Proof.
  apply (consumePage_durations_nonneg Demo.env "http://localhost:8090" "h"
           "t0" [] "abc" 3 10 10 None
           (page_events "http://localhost:8090" "h" "t0" "h/t0"
              {| Body := "page 0" |})).
  - intros m n Hmn. change (10 * Z.of_nat m <= 10 * Z.of_nat n). lia.
  - reflexivity.
Defined.

(** ** The loop, iteration by iteration *)

Section Iterations.

Variable env : Env.
Variables url hash : string.

(** An iteration that goes on fetched a page without error and appended
    its record count. *)
Lemma iteration_continue_inv st w st' w' :
  iteration env url hash st w = Continue st' w' ->
  nextToken st <> "" /\
  len (recordCounts st) < GoInt.max_int /\
  exists next recordCount d1 d2,
    consumePage env url hash (nextToken st) w
    = ((next, recordCount, d1, d2, None), w') /\
    st' = {| nextToken := next;
             pageCount := GoInt.add (pageCount st) 1;
             recordCounts := recordCounts st ++ [recordCount];
             totalDurationRequest := GoInt.add (totalDurationRequest st) d1;
             totalUnmarshalDuration :=
               GoInt.add (totalUnmarshalDuration st) d2 |}.
Proof.
  unfold iteration.
  destruct (0 <? len_string (nextToken st)) eqn:Hne; [|discriminate].
  apply string_nonempty in Hne.
  destruct (consumePage env url hash (nextToken st) w)
    as [[[[[token recordCount] d1] d2] err] w1].
  destruct err; [discriminate|].
  destruct (append (recordCounts st) recordCount) as [counts|] eqn:Ha;
    [|discriminate].
  apply append_some in Ha as [-> Hlt].
  intros [= <- <-]. repeat split; trivial.
  exists token, recordCount, d1, d2. split; reflexivity.
Qed.

(** An iteration that returns does so after the loop, with what was
    accumulated, or from a failed fetch, with the zero result. *)
Lemma iteration_leave_inv st w r w' :
  iteration env url hash st w = Leave r w' ->
  (nextToken st = "" /\ w' = w /\
   r = (pageCount st, recordCounts st, totalDurationRequest st,
        totalUnmarshalDuration st, None))
  \/ (nextToken st <> "" /\
      exists err,
        r = (0, [], 0, 0, Some err) /\
        snd (fst (consumePage env url hash (nextToken st) w)) = Some err /\
        w' = snd (consumePage env url hash (nextToken st) w)).
Proof.
  unfold iteration.
  destruct (0 <? len_string (nextToken st)) eqn:Hne.
  - apply string_nonempty in Hne.
    destruct (consumePage env url hash (nextToken st) w)
      as [[[[[token recordCount] d1] d2] err] w1].
    destruct err as [err|].
    + intros [= <- <-]. right. split; [exact Hne|]. exists err. auto.
    + destruct (append (recordCounts st) recordCount); discriminate.
  - intros [= <- <-]. left. repeat split.
    destruct (nextToken st); [reflexivity | discriminate Hne].
Qed.

Lemma iteration_panic_inv st w msg w' :
  iteration env url hash st w = Panic msg w' ->
  nextToken st <> "" /\ w' = snd (consumePage env url hash (nextToken st) w).
Proof.
  unfold iteration.
  destruct (0 <? len_string (nextToken st)) eqn:Hne; [|discriminate].
  apply string_nonempty in Hne.
  destruct (consumePage env url hash (nextToken st) w)
    as [[[[[token recordCount] d1] d2] err] w1].
  destruct err; [discriminate|].
  destruct (append (recordCounts st) recordCount); [discriminate|].
  intros [= _ <-]. auto.
Qed.

(** What holds of the calls of every page fetch holds of the calls of
    every run of the loop. *)
Lemma loop_events (P : Event -> Prop) :
  (forall token w, exists evs,
        snd (consumePage env url hash token w) = w ++ evs /\ Forall P evs) ->
  forall fuel st w, exists evs,
      final_world (loop env fuel url hash st w) = w ++ evs /\ Forall P evs.
Proof.
  intros Hpage. induction fuel as [|fuel IH]; intros st w; simpl.
  { exists []. rewrite app_nil_r. auto. }
  destruct (iteration env url hash st w) as [st1 w1 | r w1 | msg w1] eqn:Hit.
  - apply iteration_continue_inv in Hit
      as (_ & _ & next & recordCount & d1 & d2 & Hp & _).
    destruct (Hpage (nextToken st) w) as (evs0 & Hw & H0).
    rewrite Hp in Hw. simpl in Hw. subst w1.
    destruct (IH st1 (w ++ evs0)) as (evs1 & Hw1 & H1).
    exists (evs0 ++ evs1). rewrite Hw1, app_assoc. split; [reflexivity|].
    apply Forall_app. auto.
  - simpl. apply iteration_leave_inv in Hit
      as [(_ & -> & _) | (_ & err & _ & _ & ->)].
    + exists []. rewrite app_nil_r. auto.
    + apply Hpage.
  - simpl. apply iteration_panic_inv in Hit as (_ & ->). apply Hpage.
Qed.

(** The loop never exits the process. *)
Lemma loop_not_exited fuel : forall st w code w',
  loop env fuel url hash st w <> Exited code w'.
Proof.
  induction fuel as [|fuel IH]; intros st w code w'; simpl; [discriminate|].
  destruct (iteration env url hash st w); [apply IH | discriminate ..].
Qed.

End Iterations.

(** X4.  Whatever the server does and however the run ends, the only
    library calls consumeAllPages makes are those of page fetches
    (serialization, clock, POST, decoding): it prints nothing and does not
    exit; every request it serializes carries the hash it was given and
    every POST goes to url/page with content type application/json. *)
Theorem consumeAllPages_calls env url hash fuel firstToken w :
  exists evs,
    final_world (consumeAllPages env fuel url hash firstToken w) = w ++ evs /\
    Forall (fun e => is_fetch_event e = true /\ well_addressed url hash e) evs.
Proof.
  apply loop_events. intros token w0. apply consumePage_events.
Qed.

(** ** Whole runs of consumeAllPages *)

Section Runs.

Variable env : Env.
Variables url hash : string.

(** A fetch without error made the six calls of a successful fetch and
    returns what the decoded response holds. *)
Lemma consumePage_none_inv token w next recordCount d1 d2 w1 :
  consumePage env url hash token w = ((next, recordCount, d1, d2, None), w1) ->
  exists jsonData resp rs,
    w1 = w ++ page_events url hash token jsonData resp /\
    next = NextToken (Meta_ rs) /\
    recordCount = record_count rs /\
    d1 = time_Sub (time_Now env (1 + count is_now w))
                  (time_Now env (count is_now w)) /\
    d2 = time_Sub (time_Now env (2 + count is_now w))
                  (time_Now env (1 + count is_now w)).
Proof.
  intros H.
  destruct (consumePage_cases env url hash token w)
    as [(err & _ & E) | [(jsonData & err & _ & _ & E)
       | [(jsonData & resp & err & _ & _ & _ & E)
         | (jsonData & resp & rs & _ & _ & _ & E)]]];
    rewrite E in H; try discriminate H.
  injection H as <- <- <- <- <-.
  exists jsonData, resp, rs. repeat split.
Qed.

Lemma record_count_nonneg rs : 0 <= record_count rs.
Proof. unfold record_count, len. lia. Qed.

Lemma count_after_page p w token jsonData resp :
  Z.of_nat (count p (w ++ page_events url hash token jsonData resp))
  = Z.of_nat (count p w)
    + Z.of_nat (count p (page_events url hash token jsonData resp)).
Proof. rewrite count_app. lia. Qed.

Lemma loop_requests fuel : forall st w pc rc d1 d2 w',
  counts_agree st ->
  loop env fuel url hash st w = Returned (pc, rc, d1, d2, None) w' ->
  Z.of_nat (count is_post w')
  = Z.of_nat (count is_post w) + (pc - pageCount st) /\
  Z.of_nat (count is_decode w')
  = Z.of_nat (count is_decode w) + (pc - pageCount st) /\
  Z.of_nat (count is_now w')
  = Z.of_nat (count is_now w) + 3 * (pc - pageCount st).
Proof.
  induction fuel as [|fuel IH]; intros st w pc rc d1 d2 w' Hinv;
    cbn [loop]; [discriminate|].
  destruct (iteration env url hash st w) as [st1 w1 | r w1 | msg w1] eqn:Hit;
    [| | discriminate].
  - intros Hrun.
    pose proof (iteration_counts_agree env url hash st w st1 w1 Hinv Hit)
      as Hinv1.
    apply iteration_continue_inv in Hit
      as (_ & Hlt & next & recordCount & e1 & e2 & Hp & Hst).
    apply consumePage_none_inv in Hp
      as (jsonData & resp & rs & -> & _).
    destruct (IH st1 _ pc rc d1 d2 w' Hinv1 Hrun) as (Hpost & Hdec & Hnow).
    rewrite count_after_page in Hpost, Hdec, Hnow.
    assert (Hpc : pageCount st1 = pageCount st + 1).
    { subst st1. simpl. apply increment_fits. rewrite Hinv.
      pose proof (len_nonneg (recordCounts st)). lia. }
    change (count is_post (page_events url hash (nextToken st) jsonData resp))
      with 1%nat in Hpost.
    change (count is_decode
              (page_events url hash (nextToken st) jsonData resp))
      with 1%nat in Hdec.
    change (count is_now (page_events url hash (nextToken st) jsonData resp))
      with 3%nat in Hnow.
    lia.
  - intros [= -> ->].
    apply iteration_leave_inv in Hit
      as [(_ & -> & [= -> _ _ _]) | (_ & err & [= _ _ _ _] & _)].
    lia.
Qed.

(** Against a server with no last page, every fetch succeeds and returns
    a token to go on with. *)
Lemma endless_page token w :
  endless env ->
  exists next recordCount d1 d2 w1,
    consumePage env url hash token w = ((next, recordCount, d1, d2, None), w1)
    /\ next <> "".
Proof.
  intros (Hm & Hp & Hd).
  destruct (Hm {| Hash := hash; Token := token |}) as (jsonData & Hj).
  destruct (Hp (count is_post w) (url ++ "/page")%string "application/json"
              jsonData) as (resp & Hr).
  destruct (Hd (count is_decode w) (Body resp)) as (rs & Hrs & Hne).
  rewrite (consumePage_ok env url hash token w jsonData resp rs Hj Hr Hrs).
  do 5 eexists. split; [reflexivity | exact Hne].
Qed.

Lemma loop_endless fuel : forall st w r w',
  endless env ->
  nextToken st <> "" ->
  loop env fuel url hash st w <> Returned r w'.
Proof.
  induction fuel as [|fuel IH]; intros st w r w' He Hne; simpl;
    [discriminate|].
  destruct (endless_page (nextToken st) w He)
    as (next & recordCount & d1 & d2 & w1 & Hp & Hnext).
  unfold iteration. apply string_nonempty in Hne. rewrite Hne, Hp.
  destruct (append (recordCounts st) recordCount); [|discriminate].
  apply IH; assumption.
Qed.

Lemma loop_counts_nonneg fuel : forall st w pc rc d1 d2 err w',
  Forall (fun c => 0 <= c) (recordCounts st) ->
  loop env fuel url hash st w = Returned (pc, rc, d1, d2, err) w' ->
  Forall (fun c => 0 <= c) rc.
Proof.
  induction fuel as [|fuel IH]; intros st w pc rc d1 d2 err w' Hst; simpl;
    [discriminate|].
  destruct (iteration env url hash st w) as [st1 w1 | r w1 | msg w1] eqn:Hit;
    [| | discriminate].
  - apply IH.
    apply iteration_continue_inv in Hit
      as (_ & _ & next & recordCount & e1 & e2 & Hp & ->).
    apply consumePage_none_inv in Hp as (_ & _ & rs & _ & _ & -> & _).
    simpl. apply Forall_app. split; [exact Hst|].
    constructor; [apply record_count_nonneg | constructor].
  - intros [= ->].
    apply iteration_leave_inv in Hit
      as [(_ & _ & [= _ Hrc _ _ _]) | (_ & e & [= _ Hrc _ _ _] & _)];
      rewrite Hrc; [exact Hst | constructor].
Qed.

End Runs.

(** X5.  A run of consumeAllPages that returns without error has made
    exactly as many POSTs and as many decodings as the page count it
    returns, and three clock readings per page. *)
Theorem consumeAllPages_one_request_per_page env fuel url hash firstToken w
  pc rc d1 d2 w' :
  consumeAllPages env fuel url hash firstToken w
  = Returned (pc, rc, d1, d2, None) w' ->
  Z.of_nat (count is_post w') = Z.of_nat (count is_post w) + pc /\
  Z.of_nat (count is_decode w') = Z.of_nat (count is_decode w) + pc /\
  Z.of_nat (count is_now w') = Z.of_nat (count is_now w) + 3 * pc.
Proof.
  intros H.
  destruct (loop_requests env url hash fuel (initial firstToken) w
              pc rc d1 d2 w') as (Hp & Hd & Hn);
    [reflexivity | exact H |].
  simpl in Hp, Hd, Hn. rewrite Z.sub_0_r in Hp, Hd, Hn. auto.
Qed.

Lemma consumeAllPages_one_request_per_page_witness :
  Z.of_nat (count is_post (final_world Demo.run))
  = Z.of_nat (count is_post []) + 2 /\
  Z.of_nat (count is_decode (final_world Demo.run))
  = Z.of_nat (count is_decode []) + 2 /\
  Z.of_nat (count is_now (final_world Demo.run))
  = Z.of_nat (count is_now []) + 3 * 2.
Proof.
  apply (consumeAllPages_one_request_per_page Demo.env 5
           "http://localhost:8090" "h" "t0" [] 2 [3; 5] 20 20).
  reflexivity.
Defined.

(** X6.  The loop has no page limit: against a server that answers every
    request with a page whose next token is not empty, consumeAllPages,
    started on a non-empty token, never returns, however much fuel it is
    given. *)
Theorem consumeAllPages_endless env fuel url hash firstToken w r w' :
  endless env ->
  firstToken <> "" ->
  consumeAllPages env fuel url hash firstToken w <> Returned r w'.
Proof.
  intros He Hne. apply loop_endless; assumption.
Qed.

Lemma consumeAllPages_endless_witness :
  consumeAllPages Demo.env_endless 3 "http://localhost:8090" "h" "t0" []
  <> Returned (3, [1; 1; 1], 30, 30, None) [].
Proof.
  apply consumeAllPages_endless.
  - repeat split.
    + intros r. eexists. reflexivity.
    + intros n u c b. eexists. reflexivity.
    + intros n b. eexists. split; [reflexivity | discriminate].
  - discriminate.
Defined.

(** X7.  Whatever consumeAllPages returns, the page count is not negative
    and no record count is negative. *)
Theorem consumeAllPages_counts_nonneg env fuel url hash firstToken w
  pc rc d1 d2 err w' :
  consumeAllPages env fuel url hash firstToken w
  = Returned (pc, rc, d1, d2, err) w' ->
  0 <= pc /\ Forall (fun c => 0 <= c) rc.
Proof.
  intros H. split.
  - rewrite (loop_counts_agree env url hash fuel (initial firstToken) w
               pc rc d1 d2 err w'); [apply len_nonneg | reflexivity | exact H].
  - eapply loop_counts_nonneg; [|exact H]. constructor.
Qed.

Lemma consumeAllPages_counts_nonneg_witness :
  0 <= 2 /\ Forall (fun c => 0 <= c) [3; 5].
Proof.
  apply (consumeAllPages_counts_nonneg Demo.env 5 "http://localhost:8090"
           "h" "t0" [] 2 [3; 5] 20 20 None (final_world Demo.run)).
  reflexivity.
Defined.

(** X8.  Every error consumeAllPages returns comes with the zero result
    and is the error of a failed step (serialization, POST or decoding) of
    a page fetch on a non-empty token, the last thing the run did. *)
Theorem consumeAllPages_error_origin env fuel url hash firstToken w
  pc rc d1 d2 err w' :
  consumeAllPages env fuel url hash firstToken w
  = Returned (pc, rc, d1, d2, Some err) w' ->
  pc = 0 /\ rc = [] /\ d1 = 0 /\ d2 = 0 /\
  exists token w0,
    token <> "" /\
    page_failure env url hash token w0 err /\
    w' = snd (consumePage env url hash token w0).
Proof.
  unfold consumeAllPages. generalize (initial firstToken) as st. revert w.
  induction fuel as [|fuel IH]; intros w st; cbn [loop]; [discriminate|].
  destruct (iteration env url hash st w) as [st1 w1 | r w1 | msg w1] eqn:Hit;
    [apply IH | | discriminate].
  intros [= -> ->].
  apply iteration_leave_inv in Hit
    as [(_ & _ & [= _ _ _ _]) | (Hne & e & [= -> -> -> -> ->] & He & ->)].
  repeat split; trivial.
  exists (nextToken st), w. repeat split; trivial.
  now apply consumePage_error.
Qed.

Lemma consumeAllPages_error_origin_witness :
  0 = 0 /\ @nil Z = [] /\ 0 = 0 /\ 0 = 0 /\
  exists token w0,
    token <> "" /\
    page_failure Demo.env_first_page_only "http://localhost:8090" "h" token w0
      "connection refused" /\
    final_world (consumeAllPages Demo.env_first_page_only 5
                   "http://localhost:8090" "h" "t0" [])
    = snd (consumePage Demo.env_first_page_only "http://localhost:8090" "h"
             token w0).
Proof.
  apply (consumeAllPages_error_origin Demo.env_first_page_only 5
           "http://localhost:8090" "h" "t0" [] 0 [] 0 0 "connection refused").
  reflexivity.
Defined.

(** ** Measured time *)

Lemma loop_elapsed env url hash (first : nat) :
  monotone_clock env ->
  clock_in_range env ->
  forall fuel st w pc rc d1 d2 err w',
    (first <= count is_now w)%nat ->
    0 <= totalDurationRequest st ->
    0 <= totalUnmarshalDuration st ->
    totalDurationRequest st + totalUnmarshalDuration st
    <= time_Now env (Nat.max first (count is_now w - 1)) - time_Now env first ->
    loop env fuel url hash st w = Returned (pc, rc, d1, d2, err) w' ->
    0 <= d1 /\ 0 <= d2 /\
    d1 + d2
    <= time_Now env (Nat.max first (count is_now w' - 1)) - time_Now env first.
Proof.
  intros Hmono Hrange.
  induction fuel as [|fuel IH]; intros st w pc rc d1 d2 err w' Hc H1 H2 Hsum;
    cbn [loop]; [discriminate|].
  destruct (iteration env url hash st w) as [st1 w1 | r w1 | msg w1] eqn:Hit;
    [| | discriminate].
  - apply iteration_continue_inv in Hit
      as (_ & _ & next & recordCount & e1 & e2 & Hp & Hst).
    apply consumePage_none_inv in Hp
      as (jsonData & resp & rs & -> & _ & _ & He1 & He2).
    set (c := count is_now w) in *.
    assert (Hc1 : count is_now
                    (w ++ page_events url hash (nextToken st) jsonData resp)
                  = (c + 3)%nat).
    { rewrite count_app. reflexivity. }
    pose proof (Hmono (Nat.max first (c - 1)) c ltac:(lia)) as M0.
    pose proof (Hmono c (1 + c)%nat ltac:(lia)) as M1.
    pose proof (Hmono (1 + c)%nat (2 + c)%nat ltac:(lia)) as M2.
    pose proof (Hrange first) as R0.
    pose proof (Hrange c) as Rc.
    pose proof (Hrange (2 + c)%nat) as R2.
    rewrite time_Sub_exact in He1 by lia.
    rewrite time_Sub_exact in He2 by lia.
    assert (Hr : GoInt.add (totalDurationRequest st) e1
                 = totalDurationRequest st + e1).
    { apply GoIntFacts.wrap_small.
      unfold GoInt.in_range, GoInt.min_int, GoInt.max_int in *. lia. }
    assert (Hu : GoInt.add (totalUnmarshalDuration st) e2
                 = totalUnmarshalDuration st + e2).
    { apply GoIntFacts.wrap_small.
      unfold GoInt.in_range, GoInt.min_int, GoInt.max_int in *. lia. }
    apply IH; rewrite ?Hc1; subst st1; cbn [totalDurationRequest
      totalUnmarshalDuration]; rewrite ?Hr, ?Hu; try lia.
    replace (Nat.max first (c + 3 - 1)) with (2 + c)%nat by lia. lia.
  - intros [= -> ->].
    pose proof (Hmono first (Nat.max first (count is_now w' - 1))
                  ltac:(lia)) as M.
    apply iteration_leave_inv in Hit
      as [(_ & -> & [= _ _ -> -> _]) | (_ & e & [= _ _ -> -> _] & _)];
      lia.
Qed.

(** X9.  With a clock that never goes backwards and whose readings are
    non-negative [int64] values, neither total duration consumeAllPages
    returns is negative, and together they are no more than the time from
    the first clock reading of the run to its last: the totals do not wrap
    around and the client does not report more time than has passed. *)
Theorem consumeAllPages_elapsed env fuel url hash firstToken w
  pc rc d1 d2 err w' :
  monotone_clock env ->
  clock_in_range env ->
  consumeAllPages env fuel url hash firstToken w
  = Returned (pc, rc, d1, d2, err) w' ->
  0 <= d1 /\ 0 <= d2 /\
  d1 + d2
  <= time_Now env (Nat.max (count is_now w) (count is_now w' - 1))
     - time_Now env (count is_now w).
Proof.
  intros Hmono Hrange H.
  pose proof (Hmono (count is_now w)
                (Nat.max (count is_now w) (count is_now w - 1)) ltac:(lia)).
  eapply (loop_elapsed env url hash (count is_now w) Hmono Hrange fuel
            (initial firstToken) w); [| | | | exact H]; simpl; lia.
Qed.

Lemma consumeAllPages_elapsed_witness :
  0 <= 20 /\ 0 <= 20 /\
  20 + 20
  <= time_Now Demo.env_bounded_clock
       (Nat.max (count is_now []) (count is_now (final_world Demo.run) - 1))
     - time_Now Demo.env_bounded_clock (count is_now []).
Proof.
  apply (consumeAllPages_elapsed Demo.env_bounded_clock 5
           "http://localhost:8090" "h" "t0" [] 2 [3; 5] 20 20 None
           (final_world Demo.run)).
  - intros m n Hmn.
    change (Z.min (10 * Z.of_nat m) GoInt.max_int
            <= Z.min (10 * Z.of_nat n) GoInt.max_int). lia.
  - intros n.
    change (0 <= Z.min (10 * Z.of_nat n) GoInt.max_int <= GoInt.max_int).
    unfold GoInt.max_int. lia.
  - reflexivity.
Defined.

(** ** main, from the command line to the report *)

Section Main.

Variable env : Env.

Lemma nonempty_len s : s <> "" -> (len_string s =? 0) = false.
Proof. destruct s; [congruence | reflexivity]. Qed.

(** When flag.Parse has returned and the three flags read to non-empty
    values, main fetches all pages and reports what consumeAllPages
    returned. *)
Lemma main_valid arguments args fuel w :
  flag_Parse env arguments = Parsed args ->
  arg_url args <> "" -> arg_hash args <> "" -> arg_token args <> "" ->
  main env arguments fuel w
  = match consumeAllPages env fuel (arg_url args) (arg_hash args)
            (arg_token args) (w ++ [EvParse arguments]) with
    | Returned (pageCount, recordCounts, d1, d2, err) w1 =>
        Returned tt
          (snd (printConsumption env (arg_hash args) (arg_token args)
                  pageCount recordCounts d1 d2 err w1))
    | Panicked msg w1 => Panicked msg w1
    | Exited code w1 => Exited code w1
    | OutOfFuel w1 => OutOfFuel w1
    end.
Proof.
  intros Hparse Hu Hh Ht. unfold main, Parse. rewrite Hparse.
  fold (arg_url args) (arg_hash args) (arg_token args).
  rewrite (nonempty_len _ Hu), (nonempty_len _ Hh), (nonempty_len _ Ht).
  simpl.
  destruct (consumeAllPages env fuel (arg_url args) (arg_hash args)
              (arg_token args) (w ++ [EvParse arguments]))
    as [[[[[pc rc] d1] d2] err] w1 | | |];
    trivial.
  destruct (printConsumption env (arg_hash args) (arg_token args) pc rc d1 d2
              err w1) as [[] w2].
  reflexivity.
Qed.

Lemma main_invalid arguments args fuel w :
  flag_Parse env arguments = Parsed args ->
  arg_url args = "" \/ arg_hash args = "" \/ arg_token args = "" ->
  main env arguments fuel w
  = Exited 1 (w ++ [EvParse arguments; EvLogFatal "invalid arguments"]).
Proof.
  intros Hparse H. unfold main, Parse, log_Fatal. rewrite Hparse.
  fold (arg_url args) (arg_hash args) (arg_token args).
  rewrite <- app_assoc.
  destruct H as [-> | [-> | ->]]; simpl; rewrite ?orb_true_r; reflexivity.
Qed.

Lemma main_parse_exits arguments fuel w :
  (flag_Parse env arguments = ParseHelp ->
   main env arguments fuel w = Exited 0 (w ++ [EvParse arguments]))
  /\ (forall msg,
         flag_Parse env arguments = ParseError msg ->
         main env arguments fuel w = Exited 2 (w ++ [EvParse arguments])).
Proof.
  split; [intros H | intros msg H]; unfold main, Parse; now rewrite H.
Qed.

Lemma fetches_nonempty url hash counts tok w tok' w' :
  fetches env url hash counts tok w tok' w' -> tok' <> "" -> tok <> "".
Proof. intros [ | ]; auto. Qed.

Lemma forallb_printf_report hash firstToken pc rc d1 d2 err w :
  exists printed,
    snd (printConsumption env hash firstToken pc rc d1 d2 err w)
    = w ++ printed /\
    forallb is_printf printed = true /\
    printed <> [].
Proof.
  rewrite printConsumption_events. eexists. split; [reflexivity|].
  destruct err; split; try reflexivity; discriminate.
Qed.

Lemma missing_or_empty_reads flag :
  missing_or_empty flag -> flag_String flag "" = "".
Proof. intros [-> | ->]; reflexivity. Qed.

End Main.

(** ** main: the argument check *)

(** C8, as stated, fails: on a command line that gives hash and token
    and no url, the url flag takes its default, and the program goes on to
    fetch pages. *)
Lemma fatal_on_missing_url_fails :
  ~ fatal_on_missing_or_empty Demo.env ["-hash"; "h"; "-token"; "t0"].
Proof.
  intros H.
  specialize (H {| flag_url := None; flag_hash := Some "h";
                   flag_token := Some "t0" |}
                eq_refl (or_introl (or_introl eq_refl)) 5%nat []).
  vm_compute in H. discriminate H.
Qed.

(** C8, amended.  Once flag.Parse has accepted the command line: when the
    hash or the token flag is absent or empty, or the url flag is given as
    the empty string, main exits with "invalid arguments" and status 1,
    and has made no other library call, so no HTTP call and no page fetch;
    when the url flag is absent and hash and token are not empty, main
    does not exit: it fetches the pages from http://localhost:8090 and
    reports them. *)
Theorem main_invalid_arguments env arguments args fuel w :
  flag_Parse env arguments = Parsed args ->
  (flag_url args = Some "" \/ missing_or_empty (flag_hash args)
   \/ missing_or_empty (flag_token args) ->
   main env arguments fuel w
   = Exited 1 (w ++ [EvParse arguments; EvLogFatal "invalid arguments"]))
  /\ (flag_url args = None ->
      arg_hash args <> "" -> arg_token args <> "" ->
      (forall code w', main env arguments fuel w <> Exited code w') /\
      main env arguments fuel w
      = match consumeAllPages env fuel "http://localhost:8090"
                (arg_hash args) (arg_token args) (w ++ [EvParse arguments]) with
        | Returned (pageCount, recordCounts, d1, d2, err) w1 =>
            Returned tt
              (snd (printConsumption env (arg_hash args) (arg_token args)
                      pageCount recordCounts d1 d2 err w1))
        | Panicked msg w1 => Panicked msg w1
        | Exited code w1 => Exited code w1
        | OutOfFuel w1 => OutOfFuel w1
        end).
Proof.
  intros Hparse. split.
  - intros H. apply (main_invalid env arguments args fuel w Hparse).
    unfold arg_url, arg_hash, arg_token.
    destruct H as [Hu | [Hh | Ht]].
    + left. now rewrite Hu.
    + right. left. now apply missing_or_empty_reads.
    + right. right. now apply missing_or_empty_reads.
  - intros Hu Hh Ht.
    assert (Hurl : arg_url args = "http://localhost:8090")
      by (unfold arg_url; now rewrite Hu).
    assert (E := main_valid env arguments args fuel w Hparse).
    rewrite Hurl in E. specialize (E ltac:(discriminate) Hh Ht).
    split; [|exact E].
    intros code w' Hexit. rewrite E in Hexit.
    pose proof (loop_not_exited env "http://localhost:8090" (arg_hash args)
                  fuel (initial (arg_token args)) (w ++ [EvParse arguments]))
      as Hno.
    unfold consumeAllPages in Hexit.
    destruct (loop env fuel "http://localhost:8090" (arg_hash args)
                (initial (arg_token args)) (w ++ [EvParse arguments]))
      as [[[[[pc rc] d1] d2] err] w1 | | code1 w1 |]; try discriminate Hexit.
    now apply (Hno code1 w1).
Qed.

Lemma main_invalid_arguments_witness :
  main Demo.env ["-hash"; ""; "-token"; "t0"] 5 []
  = Exited 1 ([] ++ [EvParse ["-hash"; ""; "-token"; "t0"];
                     EvLogFatal "invalid arguments"])
  /\ (forall code w',
         main Demo.env ["-hash"; "h"; "-token"; "t0"] 5 [] <> Exited code w').
Proof.
  split.
  - apply (proj1 (main_invalid_arguments Demo.env
                    ["-hash"; ""; "-token"; "t0"]
                    {| flag_url := None; flag_hash := Some "";
                       flag_token := Some "t0" |} 5 [] eq_refl)).
    right. left. right. reflexivity.
  - apply (proj2 (main_invalid_arguments Demo.env
                    ["-hash"; "h"; "-token"; "t0"]
                    {| flag_url := None; flag_hash := Some "h";
                       flag_token := Some "t0" |} 5 [] eq_refl));
      [reflexivity | discriminate | discriminate].
Defined.

(** ** main: whole runs *)

(** X10.  End to end, success: when flag.Parse has returned and the three
    flags read to non-empty values, and the fetches starting on the token
    flag succeed in a row and the last returns an empty next token, main
    returns normally and what it adds to standard output after the last
    fetch is the five-line report, with the number of fetches as page
    count and the sum of their record counts, wrapped to an [int], as
    record total. *)
Theorem main_reports_all_pages env arguments args fuel w counts w1 :
  flag_Parse env arguments = Parsed args ->
  arg_url args <> "" -> arg_hash args <> "" -> arg_token args <> "" ->
  fetches env (arg_url args) (arg_hash args) counts (arg_token args)
    (w ++ [EvParse arguments]) "" w1 ->
  len counts <= GoInt.max_int ->
  (List.length counts < fuel)%nat ->
  exists d1 d2 printed,
    main env arguments fuel w = Returned tt (w1 ++ printed) /\
    forallb is_printf printed = true /\
    stdout printed
    = report env (arg_hash args) (arg_token args) (len counts)
        (GoInt.wrap (sum counts)) d1 d2 None.
Proof.
  intros Hparse Hu Hh Ht Hf Hlen Hfuel.
  destruct (loop_fetches env _ _ _ _ _ _ _ Hf (initial (arg_token args)))
    as (st' & Ht' & Hpc & Hrc & Hloop).
  - reflexivity.
  - reflexivity.
  - simpl. unfold len in *. lia.
  - exists (totalDurationRequest st'), (totalUnmarshalDuration st').
    rewrite (main_valid env arguments args fuel w Hparse Hu Hh Ht).
    unfold consumeAllPages.
    replace fuel
      with (List.length counts + S (fuel - S (List.length counts)))%nat by lia.
    rewrite Hloop. cbn [loop]. rewrite (iteration_empty _ _ _ _ _ Ht').
    cbv beta iota. rewrite Hpc, Hrc. cbn [initial pageCount recordCounts app].
    rewrite Z.add_0_l.
    rewrite printConsumption_events. eexists. split; [reflexivity|].
    split; [reflexivity|].
    rewrite <- total_records_wrap. unfold report. simpl.
    rewrite ?string_app_nil_r. reflexivity.
Qed.

Lemma main_reports_all_pages_witness :
  exists d1 d2 printed,
    main Demo.env ["-hash"; "h"; "-token=t0"] 5 []
    = Returned tt
        (([EvParse ["-hash"; "h"; "-token=t0"]]
          ++ page_events "http://localhost:8090" "h" "t0" "h/t0"
               {| Body := "page 0" |}
          ++ page_events "http://localhost:8090" "h" "abc" "h/abc"
               {| Body := "page 1" |})
         ++ printed) /\
    forallb is_printf printed = true /\
    stdout printed
    = report Demo.env "h" "t0" (len [3; 5]) (GoInt.wrap (sum [3; 5]))
        d1 d2 None.
Proof.
  apply (main_reports_all_pages Demo.env ["-hash"; "h"; "-token=t0"]
           {| flag_url := None; flag_hash := Some "h"; flag_token := Some "t0" |}
           5 [] [3; 5]).
  - reflexivity.
  - discriminate.
  - discriminate.
  - discriminate.
  - eapply fetches_next; [discriminate | reflexivity |].
    eapply fetches_next; [discriminate | reflexivity |].
    apply fetches_none.
  - vm_compute. discriminate.
  - simpl. lia.
Defined.

(** X11.  End to end, failure: when flag.Parse has returned and the flags
    read to non-empty values, and a page fetch fails after any number of
    successful ones, main prints the hash and first-token line and the
    error line, nothing else, right after the failed fetch, and returns
    normally: a fetch error does not make the program exit with a failure
    status. *)
Theorem main_reports_fetch_error env arguments args fuel w counts tok wk r w1
  err :
  flag_Parse env arguments = Parsed args ->
  arg_url args <> "" -> arg_hash args <> "" ->
  fetches env (arg_url args) (arg_hash args) counts (arg_token args)
    (w ++ [EvParse arguments]) tok wk ->
  tok <> "" ->
  consumePage env (arg_url args) (arg_hash args) tok wk = (r, w1) ->
  snd r = Some err ->
  len counts <= GoInt.max_int ->
  (List.length counts < fuel)%nat ->
  main env arguments fuel w
  = Returned tt
      (w1 ++ [ EvPrintf ("Hash: " ++ arg_hash args ++ ", First Token: "
                         ++ arg_token args ++ nl);
               EvPrintf ("Error: " ++ err ++ nl) ]).
Proof.
  intros Hparse Hu Hh Hf Hne Hp He Hlen Hfuel.
  pose proof (fetches_nonempty env _ _ _ _ _ _ _ Hf Hne) as Ht.
  destruct (loop_fetches env _ _ _ _ _ _ _ Hf (initial (arg_token args)))
    as (st' & Ht' & _ & _ & Hloop).
  - reflexivity.
  - reflexivity.
  - simpl. unfold len in *. lia.
  - rewrite (main_valid env arguments args fuel w Hparse Hu Hh Ht).
    unfold consumeAllPages.
    replace fuel
      with (List.length counts + S (fuel - S (List.length counts)))%nat by lia.
    rewrite Hloop. cbn [loop]. subst tok.
    rewrite (iteration_error env _ _ st' wk r w1 err Hne Hp He).
    cbv beta iota. now rewrite printConsumption_events.
Qed.

Lemma main_reports_fetch_error_witness :
  main Demo.env_first_page_only ["--hash"; "h"; "--token"; "t0"] 5 []
  = Returned tt
      (final_world (consumeAllPages Demo.env_first_page_only 5
                      "http://localhost:8090" "h" "t0"
                      [EvParse ["--hash"; "h"; "--token"; "t0"]])
       ++ [ EvPrintf ("Hash: " ++ "h" ++ ", First Token: " ++ "t0" ++ nl);
            EvPrintf ("Error: " ++ "connection refused" ++ nl) ]).
Proof.
  eapply (main_reports_fetch_error Demo.env_first_page_only
            ["--hash"; "h"; "--token"; "t0"]
            {| flag_url := None; flag_hash := Some "h";
               flag_token := Some "t0" |} 5 [] [3] "abc").
  - reflexivity.
  - discriminate.
  - discriminate.
  - eapply fetches_next; [discriminate | reflexivity | apply fetches_none].
  - discriminate.
  - reflexivity.
  - reflexivity.
  - vm_compute. discriminate.
  - simpl. lia.
Defined.

(** X12.  main exits the process in three ways and no other: with status
    0 when flag.Parse meets -h or -help, with status 2 when flag.Parse
    rejects the command line, both before anything else is done, and with
    status 1 and "invalid arguments" when flag.Parse has returned and one
    of the three flags (the url flag with its default) reads to the empty
    string.  Neither a page fetch nor the report ever exits. *)
Theorem main_exits_iff env arguments fuel w code w' :
  main env arguments fuel w = Exited code w'
  <-> (flag_Parse env arguments = ParseHelp /\
       code = 0 /\ w' = w ++ [EvParse arguments])
      \/ ((exists msg, flag_Parse env arguments = ParseError msg) /\
          code = 2 /\ w' = w ++ [EvParse arguments])
      \/ (exists args,
             flag_Parse env arguments = Parsed args /\
             (arg_url args = "" \/ arg_hash args = "" \/ arg_token args = "")
             /\ code = 1 /\
             w' = w ++ [EvParse arguments; EvLogFatal "invalid arguments"]).
Proof.
  destruct (main_parse_exits env arguments fuel w) as [Hhelp Herror].
  split.
  - destruct (flag_Parse env arguments) as [args | | msg] eqn:Hparse.
    + intros H. right. right. exists args.
      destruct (string_dec (arg_url args) "") as [Hu|Hu];
        [rewrite main_invalid with (args := args) in H by auto;
         injection H as <- <-; auto |].
      destruct (string_dec (arg_hash args) "") as [Hh|Hh];
        [rewrite main_invalid with (args := args) in H by auto;
         injection H as <- <-; auto |].
      destruct (string_dec (arg_token args) "") as [Ht|Ht];
        [rewrite main_invalid with (args := args) in H by auto;
         injection H as <- <-; auto |].
      exfalso.
      rewrite (main_valid env arguments args fuel w Hparse Hu Hh Ht) in H.
      pose proof (loop_not_exited env (arg_url args) (arg_hash args) fuel
                    (initial (arg_token args)) (w ++ [EvParse arguments]))
        as Hno.
      unfold consumeAllPages in H.
      destruct (loop env fuel (arg_url args) (arg_hash args)
                  (initial (arg_token args)) (w ++ [EvParse arguments]))
        as [[[[[pc rc] d1] d2] err] w1 | | code1 w1 |]; try discriminate H.
      now apply (Hno code1 w1).
    + intros H. rewrite (Hhelp eq_refl) in H. injection H as <- <-. auto.
    + intros H. rewrite (Herror msg eq_refl) in H. injection H as <- <-.
      right. left. eauto.
  - intros [(Hp & -> & ->) | [((msg & Hp) & -> & ->)
                             | (args & Hp & Hempty & -> & ->)]].
    + now apply Hhelp.
    + now apply (Herror msg).
    + now apply main_invalid with (args := args).
Qed.

(** X13.  main prints only when the fetching is over: the calls of a run
    that returns are flag.Parse, then those of page fetches, then a report
    that is not empty; a run that panics or is cut short has made
    flag.Parse and page-fetch calls only, and a run that exits has made
    flag.Parse and at most the fatal log; both leave standard output as it
    was. *)
Theorem main_prints_last env arguments fuel w :
  match main env arguments fuel w with
  | Returned _ w' =>
      exists fetched printed,
        w' = w ++ EvParse arguments :: fetched ++ printed /\
        forallb is_fetch_event fetched = true /\
        forallb is_printf printed = true /\
        printed <> []
  | Panicked _ w' | OutOfFuel w' =>
      exists fetched,
        w' = w ++ EvParse arguments :: fetched /\
        forallb is_fetch_event fetched = true /\
        stdout w' = stdout w
  | Exited _ w' =>
      (w' = w ++ [EvParse arguments]
       \/ w' = w ++ [EvParse arguments; EvLogFatal "invalid arguments"]) /\
      stdout w' = stdout w
  end.
Proof.
  assert (Hstdout : forall evs,
             forallb is_fetch_event evs = true -> stdout evs = "").
  { induction evs as [|e evs IH]; simpl; [reflexivity|].
    destruct e; simpl; try discriminate; exact IH. }
  assert (Hquiet : forall evs,
             stdout evs = "" -> stdout (w ++ evs) = stdout w).
  { intros evs E. now rewrite stdout_app, E, string_app_nil_r. }
  destruct (main_parse_exits env arguments fuel w) as [Hhelp Herror].
  destruct (flag_Parse env arguments) as [args | | msg] eqn:Hparse;
    [| rewrite (Hhelp eq_refl); split; [auto | now apply Hquiet]
     | rewrite (Herror msg eq_refl); split; [auto | now apply Hquiet]].
  destruct (string_dec (arg_url args) "") as [Hu|Hu];
    [rewrite main_invalid with (args := args) by auto;
     split; [auto | now apply Hquiet] |].
  destruct (string_dec (arg_hash args) "") as [Hh|Hh];
    [rewrite main_invalid with (args := args) by auto;
     split; [auto | now apply Hquiet] |].
  destruct (string_dec (arg_token args) "") as [Ht|Ht];
    [rewrite main_invalid with (args := args) by auto;
     split; [auto | now apply Hquiet] |].
  rewrite (main_valid env arguments args fuel w Hparse Hu Hh Ht).
  destruct (loop_events env (arg_url args) (arg_hash args)
              (fun e => is_fetch_event e = true)) with
    (fuel := fuel) (st := initial (arg_token args))
    (w := w ++ [EvParse arguments])
    as (fetched & Hw & Hall).
  { intros token w0.
    destruct (consumePage_events env (arg_url args) (arg_hash args) token w0)
      as (evs & E & Hevs).
    exists evs. split; [exact E|].
    eapply Forall_impl; [|exact Hevs]. now intros e [He _]. }
  assert (Hfetched : forallb is_fetch_event fetched = true)
    by (apply forallb_forall; apply Forall_forall; exact Hall).
  clear Hall. rename Hfetched into Hall.
  rewrite <- app_assoc in Hw. cbn [app] in Hw.
  pose proof (loop_not_exited env (arg_url args) (arg_hash args) fuel
                (initial (arg_token args)) (w ++ [EvParse arguments])) as Hno.
  unfold consumeAllPages.
  destruct (loop env fuel (arg_url args) (arg_hash args)
              (initial (arg_token args)) (w ++ [EvParse arguments]))
    as [[[[[pc rc] d1] d2] err] w1 | msg w1 | code w1 | w1]; simpl in Hw;
    subst w1.
  - destruct (forallb_printf_report env (arg_hash args) (arg_token args)
                pc rc d1 d2 err (w ++ EvParse arguments :: fetched))
      as (printed & E & Hp & Hne).
    exists fetched, printed. rewrite E, <- app_assoc. auto.
  - exists fetched. repeat split; trivial.
    apply Hquiet. simpl. now apply Hstdout.
  - exfalso. now apply (Hno code (w ++ EvParse arguments :: fetched)).
  - exists fetched. repeat split; trivial.
    apply Hquiet. simpl. now apply Hstdout.
Qed.
